(** * Operational space controller (abr_control/controllers/osc.py)

    A shallow embedding of [OSC.__init__] and [OSC.generate].

    Numbers.  The program computes with NumPy float64 values.  They are
    modelled without rounding and without overflow: a finite value is an
    element of an ordered field [F], and the arithmetic of finite values is
    the field's.  Where NumPy produces a non-finite value from finite
    operands (the divisions of the velocity limiter, the square roots of the
    constructor) the type [ieee] adds the infinities, NaN and the negative
    zero, with the IEEE-754 rules for them.  The float32 type of [scale] is
    therefore not visible.

    Linear algebra.  Vectors and matrices over [F] are MathComp's;
    [np.dot] is the matrix product.  [np.linalg.inv] raises [LinAlgError]
    on a singular matrix and otherwise returns the inverse;
    [np.linalg.det] is the determinant.  [np.sqrt] on non-negative numbers,
    [np.pi], the float [%] and [np.linalg.pinv] have no definition in an
    ordered field and are taken as parameters (record [numpy]).

    A vector with a NaN or infinite entry is not represented entry by
    entry: once the task-space force or the null-space bias of a call has
    such an entry, every entry of the returned torque is NaN or infinite
    (each one is a sum over all entries of that vector), and the model
    returns [None] for the torque.

    State.  [generate] mutates [self]; the model threads the controller
    record through the call.  The attributes kept are the gains and flags,
    [integrated_error], [dq_des], [null_indices], and of the ones written by
    [generate]: [Mx], [Mx_non_singular] and [training_signal].  The other
    attributes written by [generate] (Tx, M, M_inv, dx, u_vmax, ...) are
    never read back by the controller.  Both inversions of [generate]
    happen before the first write to a kept attribute, so a call that raises
    leaves them unchanged.  The [print] of the constructor is not
    modelled. *)

From HB Require Import structures.
From mathcomp Require Import boot order algebra.
From Stdlib Require Import String.

Set Implicit Arguments.
Unset Strict Implicit.
Unset Printing Implicit Defensive.

Import Order.TTheory GRing.Theory Num.Theory.
Local Open Scope ring_scope.

(** ** Exceptions *)

Inductive exn := LinAlgError | ZeroDivisionError.

Inductive result (A : Type) :=
  | Return (a : A)
  | Raise (e : exn).
Arguments Raise {A} e.

Definition bind {A B : Type} (r : result A) (k : A -> result B) : result B :=
  match r with
  | Return a => k a
  | Raise e => Raise e
  end.

Notation "x <- r ;; k" := (bind r (fun x => k))
  (at level 100, r at next level, right associativity).

(** ** float64 values: finite numbers, infinities, NaN, negative zero *)

Section Ieee.

Variable F : realFieldType.

(** [Fin 0] is the positive zero; [Fin x] for [x != 0] is the number [x]. *)
Inductive ieee :=
  | NaN
  | Inf (neg : bool)
  | NegZero
  | Fin (x : F).

Definition is_nan (a : ieee) : bool :=
  if a is NaN then true else false.

Definition is_inf (a : ieee) : bool :=
  if a is Inf _ then true else false.

Definition is_finite (a : ieee) : bool :=
  match a with
  | NegZero | Fin _ => true
  | _ => false
  end.

(** The number a finite value stands for (0 on the others). *)
Definition fval (a : ieee) : F :=
  if a is Fin x then x else 0.

Definition to_fin (a : ieee) : option F :=
  match a with
  | NegZero => Some 0
  | Fin x => Some x
  | _ => None
  end.

Definition signbit (a : ieee) : bool :=
  match a with
  | NaN => false
  | Inf s => s
  | NegZero => true
  | Fin x => x < 0
  end.

Definition is_zero (a : ieee) : bool :=
  match a with
  | NegZero => true
  | Fin x => x == 0
  | _ => false
  end.

Definition fzero (s : bool) : ieee := if s then NegZero else Fin 0.

(** A finite result [x] whose sign, when [x] is zero, is [s]. *)
Definition fround (s : bool) (x : F) : ieee :=
  if x == 0 then fzero s else Fin x.

Definition fneg (a : ieee) : ieee :=
  match a with
  | NaN => NaN
  | Inf s => Inf (~~ s)
  | NegZero => Fin 0
  | Fin x => fround true (- x)
  end.

Definition fabs (a : ieee) : ieee :=
  match a with
  | NaN => NaN
  | Inf _ => Inf false
  | NegZero => Fin 0
  | Fin x => Fin `|x|
  end.

Definition fmul (a b : ieee) : ieee :=
  match a, b with
  | NaN, _ | _, NaN => NaN
  | Inf s, Inf t => Inf (s (+) t)
  | Inf s, _ => if is_zero b then NaN else Inf (s (+) signbit b)
  | _, Inf t => if is_zero a then NaN else Inf (signbit a (+) t)
  | _, _ => fround (signbit a (+) signbit b) (fval a * fval b)
  end.

Definition fdiv (a b : ieee) : ieee :=
  match a, b with
  | NaN, _ | _, NaN => NaN
  | Inf _, Inf _ => NaN
  | Inf s, _ => Inf (s (+) signbit b)
  | _, Inf t => fzero (signbit a (+) t)
  | _, _ =>
      if is_zero b then
        if is_zero a then NaN else Inf (signbit a (+) signbit b)
      else fround (signbit a (+) signbit b) (fval a / fval b)
  end.

Definition fadd (a b : ieee) : ieee :=
  match a, b with
  | NaN, _ | _, NaN => NaN
  | Inf s, Inf t => if s == t then Inf s else NaN
  | Inf s, _ => Inf s
  | _, Inf t => Inf t
  | NegZero, NegZero => NegZero
  | _, _ => Fin (fval a + fval b)
  end.

Definition fsub (a b : ieee) : ieee := fadd a (fneg b).

(** [a < b] and [a >= b] of float64: false as soon as one side is NaN. *)
Definition flt (a b : ieee) : bool :=
  match a, b with
  | NaN, _ | _, NaN => false
  | Inf s, Inf t => s && ~~ t
  | Inf s, _ => s
  | _, Inf t => ~~ t
  | _, _ => fval a < fval b
  end.

Definition fge (a b : ieee) : bool :=
  match a, b with
  | NaN, _ | _, NaN => false
  | Inf s, Inf t => ~~ s || t
  | Inf s, _ => ~~ s
  | _, Inf t => t
  | _, _ => fval b <= fval a
  end.

(** [np.sign]: -1, 0 or 1, the positive zero for both zeros, NaN for NaN. *)
Definition np_sign (a : ieee) : ieee :=
  match a with
  | NaN => NaN
  | Inf s => Fin (if s then -1 else 1)
  | NegZero => Fin 0
  | Fin x => Fin (Num.sg x)
  end.

(** [np.clip(a, lo, hi)]: NaN stays NaN. *)
Definition np_clip (a lo hi : ieee) : ieee :=
  if is_nan a then NaN
  else if flt a lo then lo
  else if flt hi a then hi
  else a.

(** ** The three task-space axes *)

Definition axis0 : 'I_3 := ord0.
Definition axis1 : 'I_3 := Ordinal (isT : (1 < 3)%N).
Definition axis2 : 'I_3 := Ordinal (isT : (2 < 3)%N).

Definition axes : seq 'I_3 := [:: axis0; axis1; axis2].

(** [np.any(p)] over a 3-vector. *)
Definition np_any (p : 'I_3 -> bool) : bool := has p axes.

(** [np.argmin] on a float 3-vector: the first index of the minimum; the
    first NaN, when there is one, counts as the minimum and stops the
    scan. *)
Definition argmin_step (a : 'I_3 -> ieee) (best i : 'I_3) : 'I_3 :=
  if is_nan (a best) then best
  else if ~~ fge (a i) (a best) then i
  else best.

Definition np_argmin (a : 'I_3 -> ieee) : 'I_3 :=
  foldl (argmin_step a) axis0 [:: axis1; axis2].

(** A float 3-vector all of whose entries are finite, as a vector over [F]. *)
Definition to_vec (a : 'I_3 -> ieee) : option 'cV[F]_3 :=
  if all (fun i => is_finite (a i)) axes
  then Some (\col_i fval (a i))
  else None.

(** ** The NumPy functions taken as parameters *)

Record numpy := Numpy {
  (** [np.sqrt] on a non-negative number *)
  sqrt_nonneg : F -> F;
  (** [np.pi] *)
  np_pi : F;
  (** [x % y] on floats *)
  np_mod : F -> F -> F;
  (** [np.linalg.pinv(A, rcond=r)] on a 3 x 3 matrix *)
  np_linalg_pinv : 'M[F]_3 -> F -> 'M[F]_3
}.

(** [np.sqrt]: NaN on a negative number. *)
Definition np_sqrt (np : numpy) (x : F) : ieee :=
  if x < 0 then NaN else Fin (sqrt_nonneg np x).

(** [np.linalg.inv]: raises on a singular matrix. *)
Definition np_linalg_inv (k : nat) (A : 'M[F]_k) : result 'M[F]_k :=
  if A \in unitmx then Return (invmx A) else Raise LinAlgError.

Definition np_linalg_det (k : nat) (A : 'M[F]_k) : F := \det A.

End Ieee.

Arguments NaN {F}.
Arguments Inf {F} neg.
Arguments NegZero {F}.

(** ** The robot model and the controller *)

Section Controller.

Variable F : realFieldType.
Variable np : numpy F.

(** Number of joints, [robot_config.N_JOINTS]. *)
Variable N_JOINTS : nat.

Local Notation ieee := (ieee F).
Local Notation vec3 := 'cV[F]_3.
Local Notation vecN := 'cV[F]_N_JOINTS.

(** The interface [generate] and [__init__] use of [robot_config].  Its
    functions return finite values and do not raise.  [J] and [dJ] have the
    six rows of the full Jacobian.  An entry of [REST_ANGLES] that is NaN
    (no rest angle) is [None].  [OFFSET] is [None] when the attribute is
    absent. *)
Record robot_config := RobotConfig {
  Tx : string -> vecN -> vec3 -> vec3;
  J : string -> vecN -> vec3 -> 'M[F]_(3 + 3, N_JOINTS);
  dJ : string -> vecN -> vecN -> 'M[F]_(3 + 3, N_JOINTS);
  M : vecN -> 'M[F]_N_JOINTS;
  g : vecN -> vecN;
  c : vecN -> vecN -> vecN;
  REST_ANGLES : 'I_N_JOINTS -> option F;
  OFFSET : option vec3
}.

(** The attributes of an [OSC] object.  [kp], [ki] and [vmax] are the
    caller's Python numbers; [kv], [lamb] and [nkv] come out of a NumPy
    square root or a division and may be non-finite. *)
Record OSC := MkOSC {
  kp : F;
  kv : ieee;
  ki : F;
  vmax : option F;
  lamb : ieee;
  null_control : bool;
  use_g : bool;
  use_C : bool;
  use_dJ : bool;
  integrated_error : vec3;
  null_indices : 'I_N_JOINTS -> bool;
  dq_des : vecN;
  nkp : F;
  nkv : ieee;
  Mx : option 'M[F]_3;
  Mx_non_singular : option 'M[F]_3;
  training_signal : option (option vecN)
}.

Variable robot : robot_config.

(** *** Task-space inertia (lines 141-157) *)

Definition task_inertia (Mq : 'M[F]_N_JOINTS) (Mx_inv : 'M[F]_3)
  : result ('M[F]_3 * option 'M[F]_3) :=
  if np_linalg_det Mq != 0 then
    Mx <- np_linalg_inv Mx_inv ;;
    Return (Mx, Some Mx_inv)
  else
    Return (np_linalg_pinv np Mx_inv (4%:R / 100%:R), None).

(** *** Velocity limiting (lines 164-180) *)

Section VelocityLimit.

Variable self : OSC.
Variable vm : F.
Variable x_tilde : vec3.

Definition sat (i : 'I_3) : ieee :=
  fdiv (Fin vm) (fmul (lamb self) (fabs (Fin (x_tilde i 0)))).

Definition saturated : bool := np_any (fun i => flt (sat i) (Fin 1)).

Definition index : 'I_3 := np_argmin sat.

Definition unclipped : ieee :=
  fmul (Fin (kp self)) (Fin (x_tilde index 0)).

Definition clipped : ieee :=
  fmul (fmul (kv self) (Fin vm)) (np_sign (Fin (x_tilde index 0))).

Definition scale (i : 'I_3) : ieee :=
  if saturated then
    if i == index then Fin 1
    else fdiv (fmul (Fin 1) clipped) unclipped
  else Fin 1.

(** [np.clip(sat / scale, 0, 1) * -self.lamb * scale * x_tilde], which
    Python reads as [((clip * (-lamb)) * scale) * x_tilde]. *)
Definition approach_velocity (i : 'I_3) : ieee :=
  fmul (fmul (fmul (np_clip (fdiv (sat i) (scale i)) (Fin 0) (Fin 1))
                   (fneg (lamb self)))
             (scale i))
       (Fin (x_tilde i 0)).

Definition u_task_vmax (dx target_vel : vec3) (i : 'I_3) : ieee :=
  fmul (fneg (kv self))
       (fsub (fsub (Fin (dx i 0)) (Fin (target_vel i 0)))
             (approach_velocity i)).

End VelocityLimit.

(** *** The task-space force (lines 159-202) *)

Definition position_force (self : OSC) (Jp : 'M[F]_(3, N_JOINTS))
    (dq : vecN) (x_tilde target_vel : vec3) : option vec3 :=
  match vmax self with
  | Some vm => to_vec (u_task_vmax self vm x_tilde (Jp *m dq) target_vel)
  | None => Some (- kp self *: x_tilde)
  end.

Definition integrate (self : OSC) (x_tilde : vec3) : vec3 :=
  if ki self != 0 then integrated_error self + x_tilde
  else integrated_error self.

Definition task_force (self : OSC) (ref_frame : string) (q dq : vecN)
    (Jp : 'M[F]_(3, N_JOINTS)) (x_tilde target_vel : vec3)
    (ee_force : option vec3) : option vec3 :=
  let u_task := position_force self Jp dq x_tilde target_vel in
  let u_task :=
    if use_dJ self then
      omap (fun u => u - usubmx (dJ robot ref_frame q dq) *m dq) u_task
    else u_task in
  let u_task :=
    if ki self != 0 then
      omap (fun u => u - ki self *: integrate self x_tilde) u_task
    else u_task in
  match ee_force with
  | Some f => omap (fun u => u + f) u_task
  | None => u_task
  end.

(** *** The null-space controller (lines 226-238) *)

Definition q_des (self : OSC) (q : vecN) : vecN :=
  \col_i (if null_indices self i then
            if REST_ANGLES robot i is Some r then
              np_mod np (r - q i 0 + np_pi np) (np_pi np * 2%:R) - np_pi np
            else 0
          else 0).

(** [q_des] keeps the NaN of a joint that is selected by [null_indices]
    and has no rest angle.  [__init__] selects no such joint. *)
Definition q_des_finite (self : OSC) : bool :=
  [forall i, null_indices self i ==> isSome (REST_ANGLES robot i)].

Definition hold_dq_des (self : OSC) (dq : vecN) : vecN :=
  \col_i (if null_indices self i then dq i 0 else dq_des self i 0).

(** [np.dot(M, nkp * q_des - nkv * dq_des)]; [None] when [nkv] or an entry
    of [q_des] is not a finite number. *)
Definition u_null (self : OSC) (Mq : 'M[F]_N_JOINTS) (q dq : vecN)
  : option vecN :=
  if q_des_finite self then
    omap (fun s => Mq *m (nkp self *: q_des self q - s *: hold_dq_des self dq))
         (to_fin (nkv self))
  else None.

Definition Jbar (M_inv : 'M[F]_N_JOINTS) (Jp : 'M[F]_(3, N_JOINTS))
    (Mx : 'M[F]_3) : 'M[F]_(N_JOINTS, 3) :=
  M_inv *m (Jp^T *m Mx).

Definition null_filter (Jp : 'M[F]_(3, N_JOINTS))
    (Jb : 'M[F]_(N_JOINTS, 3)) : 'M[F]_N_JOINTS :=
  1%:M - Jp^T *m Jb^T.

(** *** The composer (lines 204-240) *)

Definition oadd (a b : option vecN) : option vecN :=
  match a, b with
  | Some x, Some y => Some (x + y)
  | _, _ => None
  end.

(** The torque before gravity compensation; it is the training signal. *)
Definition torque_before_gravity (self : OSC) (Jp : 'M[F]_(3, N_JOINTS))
    (Mq : 'M[F]_N_JOINTS) (Mx : 'M[F]_3) (q dq : vecN)
    (u_task : option vec3) : option vecN :=
  let u := omap (fun f => Jp^T *m (Mx *m f)) u_task in
  let u := if vmax self is None then omap (fun u => u - Mq *m dq) u else u in
  if use_C self then omap (fun u => u - c robot q dq) u else u.

Definition torque (self : OSC) (Jp : 'M[F]_(3, N_JOINTS))
    (Mq M_inv : 'M[F]_N_JOINTS) (Mx : 'M[F]_3) (q dq : vecN)
    (u_task : option vec3) : option vecN :=
  let u := torque_before_gravity self Jp Mq Mx q dq u_task in
  let u := if use_g self then omap (fun u => u - g robot q) u else u in
  if null_control self then
    oadd u (omap (mulmx (null_filter Jp (Jbar M_inv Jp Mx)))
                 (u_null self Mq q dq))
  else u.

(** The controller after a call that went through. *)
Definition updated (self : OSC) (x_tilde : vec3) (dq : vecN)
    (Mx : 'M[F]_3) (flag : option 'M[F]_3) (signal : option vecN) : OSC :=
  MkOSC (kp self) (kv self) (ki self) (vmax self) (lamb self)
        (null_control self) (use_g self) (use_C self) (use_dJ self)
        (integrate self x_tilde)
        (null_indices self)
        (if null_control self then hold_dq_des self dq else dq_des self)
        (nkp self) (nkv self)
        (Some Mx) flag (Some signal).

(** *** [OSC.generate] *)

Definition generate (self : OSC) (q dq : vecN) (target_pos target_vel : vec3)
    (ref_frame : string) (offset : vec3) (ee_force : option vec3)
  : result (option vecN * OSC) :=
  let xyz := Tx robot ref_frame q offset in
  let Jp := usubmx (J robot ref_frame q offset) in
  let Mq := M robot q in
  M_inv <- np_linalg_inv Mq ;;
  let Mx_inv := Jp *m (M_inv *m Jp^T) in
  inertia <- task_inertia Mq Mx_inv ;;
  let x_tilde := xyz - target_pos in
  let u_task := task_force self ref_frame q dq Jp x_tilde target_vel ee_force in
  let signal := torque_before_gravity self Jp Mq inertia.1 q dq u_task in
  let u := torque self Jp Mq M_inv inertia.1 q dq u_task in
  Return (u, updated self x_tilde dq inertia.1 inertia.2 signal).

(** The offset of the warm-up call of [__init__] (lines 76-80). *)
Definition warm_up_offset : vec3 :=
  if OFFSET robot is Some o then o else 0.

(** *** [OSC.__init__]

    [kv] and [integrated_error] are [None] when the caller leaves the
    default.  A [kv] given by the caller is a Python number, and Python's
    division raises on a zero divisor; the default [kv] is a NumPy float
    and NumPy's division does not. *)
Definition __init__ (kp : F) (kv : option F) (ki : F) (vmax : option F)
    (null_control use_g use_C use_dJ : bool)
    (integrated_error : option vec3) : result OSC :=
  let kv' := if kv is Some k then Fin k else np_sqrt np kp in
  lamb <- (if kv is Some k then
             if k == 0 then Raise ZeroDivisionError
             else Return (fdiv (Fin kp) (Fin k))
           else Return (fdiv (Fin kp) kv')) ;;
  let nkp := kp * 10%:R^-1 in
  let self :=
    MkOSC kp kv' ki vmax lamb null_control use_g use_C use_dJ
          (if integrated_error is Some e then e else 0)
          (fun i => isSome (REST_ANGLES robot i))
          0
          nkp (np_sqrt np nkp)
          None None None in
  r <- generate self 0 0 0 0 "EE" warm_up_offset None ;;
  Return r.2.

(** [Mx_inv] of a call whose mass matrix is invertible. *)
Definition Mx_inv_of (q : vecN) (ref_frame : string) (offset : vec3)
  : 'M[F]_3 :=
  let Jp := usubmx (J robot ref_frame q offset) in
  Jp *m (invmx (M robot q) *m Jp^T).

(** *** Controllers that differ in one option *)

Definition with_use_g (b : bool) (self : OSC) : OSC :=
  MkOSC (kp self) (kv self) (ki self) (vmax self) (lamb self)
        (null_control self) b (use_C self) (use_dJ self)
        (integrated_error self) (null_indices self) (dq_des self)
        (nkp self) (nkv self)
        (Mx self) (Mx_non_singular self) (training_signal self).

Definition with_ki (k : F) (self : OSC) : OSC :=
  MkOSC (kp self) (kv self) k (vmax self) (lamb self)
        (null_control self) (use_g self) (use_C self) (use_dJ self)
        (integrated_error self) (null_indices self) (dq_des self)
        (nkp self) (nkv self)
        (Mx self) (Mx_non_singular self) (training_signal self).

(** *** Sequences of calls *)

Record call := Call {
  call_q : vecN;
  call_dq : vecN;
  call_target_pos : vec3;
  call_target_vel : vec3;
  call_ref_frame : string;
  call_offset : vec3;
  call_ee_force : option vec3
}.

Definition generate_call (self : OSC) (a : call)
  : result (option vecN * OSC) :=
  generate self (call_q a) (call_dq a) (call_target_pos a)
           (call_target_vel a) (call_ref_frame a) (call_offset a)
           (call_ee_force a).

(** The position error [x_tilde] of a call. *)
Definition position_error (a : call) : vec3 :=
  Tx robot (call_ref_frame a) (call_q a) (call_offset a) - call_target_pos a.

Definition call_jacobian (a : call) : 'M[F]_(3, N_JOINTS) :=
  usubmx (J robot (call_ref_frame a) (call_q a) (call_offset a)).

(** The task-space force of a call, as [generate] computes it. *)
Definition call_task_force (self : OSC) (a : call) : option vec3 :=
  task_force self (call_ref_frame a) (call_q a) (call_dq a)
             (call_jacobian a) (position_error a) (call_target_vel a)
             (call_ee_force a).

(** The controller after each call of a sequence; the first exception
    ends the run. *)
Fixpoint run (self : OSC) (calls : seq call) : result (seq OSC) :=
  match calls with
  | [::] => Return [::]
  | a :: calls' =>
      r <- generate_call self a ;;
      rest <- run r.2 calls' ;;
      Return (r.2 :: rest)
  end.

(** [x] has the sign [neg] (negative or zero when [neg], positive or
    zero otherwise). *)
Definition has_sign (neg : bool) (x : F) : bool :=
  if neg then x <= 0 else 0 <= x.

(** The integral term [ki * integrated_error] on an axis. *)
Definition integral_term (self : OSC) (i : 'I_3) : F :=
  ki self * integrated_error self i 0.

(** The part of the torque of a call that comes from the integral term,
    [J^T Mx (ki * integrated_error)], with the inertia and the accumulator
    the call has left in the controller [self']. *)
Definition integral_torque (a : call) (self' : OSC) : vecN :=
  if Mx self' is Some X then
    (call_jacobian a)^T *m (X *m (ki self' *: integrated_error self'))
  else 0.

End Controller.

(** ** Robot models and controllers over the rationals, for the examples

    The examples take no square root but of 0 and 1, define no rest angle
    (so that [np.pi] and [%] are not reached) and never reach
    [np.linalg.pinv]; the stand-ins below are exact there. *)

Definition np_rat : numpy rat :=
  Numpy (fun x => x) 3%:R (fun x _ => x) (fun A _ => A).

(** A three-axis gantry: the controlled point is at [p0 + q + offset], the
    first three rows of the Jacobian are the identity, the mass matrix is
    [Mq] in every configuration, gravity pulls on the third joint. *)
Definition gantry (Mq : 'M[rat]_3) (p0 : 'cV[rat]_3) : robot_config rat 3 :=
  RobotConfig
    (fun _ q x => p0 + q + x)
    (fun _ _ _ => col_mx 1%:M 0)
    (fun _ _ _ => 0)
    (fun _ => Mq)
    (fun _ => delta_mx axis2 0)
    (fun _ _ => 0)
    (fun _ => None)
    None.

(** The unit vector of the first task-space axis. *)
Definition e1 : 'cV[rat]_3 := delta_mx axis0 0.

(** A call at rest ([q = dq = 0]) with the target at the origin, as the
    warm-up call of [__init__] makes it. *)
Definition origin_call : call rat 3 := Call 0 0 0 0 "EE" 0 None.

(** A controller as [__init__] sets it up when [kv] is given, the null
    controller and the Coriolis and Jacobian-derivative terms are off and no
    joint has a rest angle. *)
Definition controller (kp kv ki : rat) (vmax : option rat) (use_g : bool)
    (integrated_error : 'cV[rat]_3) : OSC rat 3 :=
  MkOSC kp (Fin kv) ki vmax (fdiv (Fin kp) (Fin kv))
        false use_g false false
        integrated_error (fun _ => false) 0
        (kp * 10%:R^-1) (np_sqrt np_rat (kp * 10%:R^-1))
        None None None.

(** A mass matrix of rank one. *)
Definition M_singular : 'M[rat]_3 := const_mx 1.


(** A four-joint arm whose fourth joint is coupled to the first through
    the mass matrix, with a Jacobian that only sees the first three. *)
Definition M4 : 'M[rat]_(3 + 1) :=
  block_mx (1%:M + e1 *m e1^T) e1 e1^T 1%:M.

Definition M4_inv : 'M[rat]_(3 + 1) :=
  block_mx 1%:M (- e1) (- e1^T) (1 + 1)%:M.

Definition J4 : 'M[rat]_(3, 3 + 1) := row_mx 1%:M 0.


(** A gantry whose second joint moves the controlled point along the
    diagonal of the first two axes: the position is [J_skew q + offset]. *)
Definition J_skew : 'M[rat]_3 := 1%:M + delta_mx axis0 axis1.

Definition J_skew_inv : 'M[rat]_3 := 1%:M - delta_mx axis0 axis1.

Definition skew_gantry : robot_config rat 3 :=
  RobotConfig
    (fun _ q x => J_skew *m q + x)
    (fun _ _ _ => col_mx J_skew 0)
    (fun _ _ _ => 0)
    (fun _ => 1%:M)
    (fun _ => delta_mx axis2 0)
    (fun _ _ => 0)
    (fun _ => None)
    None.

(** The unit vector of the second task-space axis. *)
Definition e2 : 'cV[rat]_3 := delta_mx axis1 0.

(** A call at rest with the target at [t]. *)
Definition target_call (t : 'cV[rat]_3) : call rat 3 :=
  Call 0 0 t 0 "EE" 0 None.

(** * Properties *)

(** ** The inversions of [generate] *)

Section Inversions.

Variable F : realFieldType.
Variable np : numpy F.
Variable N_JOINTS : nat.
Variable robot : robot_config F N_JOINTS.

Local Notation vec3 := 'cV[F]_3.
Local Notation vecN := 'cV[F]_N_JOINTS.

Lemma np_linalg_inv_unit (k : nat) (A : 'M[F]_k) :
  A \in unitmx -> np_linalg_inv A = Return (invmx A).
Proof. by rewrite /np_linalg_inv => ->. Qed.

Lemma np_linalg_inv_singular (k : nat) (A : 'M[F]_k) :
  \det A = 0 -> np_linalg_inv A = Raise LinAlgError.
Proof. by rewrite /np_linalg_inv unitmxE unitfE => ->; rewrite eqxx. Qed.

Lemma unitmx_det_neq0 (k : nat) (A : 'M[F]_k) :
  A \in unitmx -> np_linalg_det A != 0.
Proof. by rewrite unitmxE unitfE. Qed.

(** A singular mass matrix makes [generate] raise, whatever the rest. *)
Lemma generate_singular_M (self : OSC F N_JOINTS) q dq target_pos target_vel
    ref_frame offset ee_force :
  \det (M robot q) = 0 ->
  generate np robot self q dq target_pos target_vel ref_frame offset ee_force
  = Raise LinAlgError.
Proof. by move=> detM; rewrite /generate np_linalg_inv_singular. Qed.

(** When both matrices are invertible [generate] returns, and the inertia
    is the inverse of [Mx_inv]. *)
Lemma generate_returns (self : OSC F N_JOINTS) q dq target_pos target_vel
    ref_frame offset ee_force :
  M robot q \in unitmx ->
  Mx_inv_of robot q ref_frame offset \in unitmx ->
  let Jp := usubmx (J robot ref_frame q offset) in
  let Mx := invmx (Mx_inv_of robot q ref_frame offset) in
  let x_tilde := Tx robot ref_frame q offset - target_pos in
  let u_task :=
    task_force robot self ref_frame q dq Jp x_tilde target_vel ee_force in
  generate np robot self q dq target_pos target_vel ref_frame offset ee_force
  = Return
      (torque np robot self Jp (M robot q) (invmx (M robot q)) Mx q dq u_task,
       updated self x_tilde dq Mx (Some (Mx_inv_of robot q ref_frame offset))
         (torque_before_gravity robot self Jp (M robot q) Mx q dq u_task)).
Proof.
move=> unitM unitMx /=.
rewrite /generate np_linalg_inv_unit //= /task_inertia unitmx_det_neq0 //.
by rewrite np_linalg_inv_unit.
Qed.

End Inversions.

(** ** The null-space filter *)

Section NullSpace.

Variable F : realFieldType.
Variable N_JOINTS : nat.
Implicit Types (Jp : 'M[F]_(3, N_JOINTS)) (Mq : 'M[F]_N_JOINTS).

Lemma J_Jbar Jp Mq :
  Jp *m (invmx Mq *m Jp^T) \in unitmx ->
  Jp *m Jbar (invmx Mq) Jp (invmx (Jp *m (invmx Mq *m Jp^T))) = 1%:M.
Proof.
by move=> unitMx; rewrite /Jbar !mulmxA -[_ *m _ *m Jp^T]mulmxA mulmxV.
Qed.

Lemma null_filter_JT Jp Mq :
  Jp *m (invmx Mq *m Jp^T) \in unitmx ->
  null_filter Jp (Jbar (invmx Mq) Jp (invmx (Jp *m (invmx Mq *m Jp^T))))
    *m Jp^T = 0.
Proof.
move=> unitMx; rewrite /null_filter mulmxBl mul1mx -mulmxA -trmx_mul.
by rewrite J_Jbar // trmx1 mulmx1 subrr.
Qed.

Lemma Mx_inv_sym Jp Mq :
  Mq \in unitmx -> Mq^T = Mq ->
  (Jp *m (invmx Mq *m Jp^T))^T = Jp *m (invmx Mq *m Jp^T).
Proof.
move=> unitM symM.
by rewrite !trmx_mul trmxK trmx_inv symM mulmxA.
Qed.

(** C3, as amended: for an invertible symmetric mass matrix and an
    invertible [Mx_inv], the product [J * M_inv * filter] is the zero
    3 x N matrix: the torque that passes the filter produces no task-space
    acceleration. *)
Theorem null_filter_dynamically_consistent Jp Mq :
  Mq \in unitmx -> Mq^T = Mq ->
  Jp *m (invmx Mq *m Jp^T) \in unitmx ->
  Jp *m invmx Mq *m
    null_filter Jp (Jbar (invmx Mq) Jp (invmx (Jp *m (invmx Mq *m Jp^T))))
  = 0.
Proof.
move=> unitM symM unitMx.
set X := invmx (Jp *m _).
have symX : X^T = X by rewrite /X trmx_inv Mx_inv_sym.
rewrite /null_filter /Jbar mulmxBr mulmx1 !trmx_mul trmxK symX trmx_inv symM.
rewrite !mulmxA -[Jp *m _ *m Jp^T]mulmxA mulmxV // mul1mx.
by rewrite subrr.
Qed.
End NullSpace.

(** *** A four-joint arm with inertial coupling *)

Section Coupled.

Lemma e1T_e1 : e1^T *m e1 = 1%:M :> 'M[rat]_1.
Proof.
rewrite /e1 trmx_delta mul_delta_mx.
by apply/matrixP=> i j; rewrite !mxE !ord1.
Qed.

Lemma M4_M4_inv : M4 *m M4_inv = 1%:M.
Proof.
rewrite /M4 /M4_inv mulmx_block (scalar_mx_block 3 1 1).
rewrite !mulmx1 !mul1mx !mulmxN e1T_e1 mulmxDl mul1mx -mulmxA e1T_e1 mulmx1.
rewrite addrK subrr.
have -> : (1 + 1)%:M = 1%:M + 1%:M :> 'M[rat]_1.
  by apply/matrixP=> i j; rewrite !mxE mulrnDl.
congr block_mx.
- by rewrite mulmxDr mulmx1 addNr.
- by rewrite addrA addNr add0r.
Qed.


Lemma M4_unit : M4 \in unitmx.
Proof. by case: (mulmx1_unit M4_M4_inv). Qed.

Lemma invmx_M4 : invmx M4 = M4_inv.
Proof.
by rewrite -[LHS]mulmx1 -M4_M4_inv mulmxA mulVmx ?mul1mx // M4_unit.
Qed.

Lemma M4_sym : M4^T = M4.
Proof.
by rewrite /M4 tr_block_mx trmxK linearD /= !trmx1 trmx_mul trmxK.
Qed.

Lemma Mx_inv4 : J4 *m (M4_inv *m J4^T) = 1%:M.
Proof.
rewrite mulmxA /J4 /M4_inv mul_row_block tr_row_mx trmx0 trmx1.
by rewrite !mul0mx !mul1mx !addr0 mul_row_col mulmx0 mulmx1 addr0.
Qed.

Lemma J4_null_filter :
  J4 *m null_filter J4 (Jbar M4_inv J4 (invmx (J4 *m (M4_inv *m J4^T))))
  = row_mx 0 e1.
Proof.
rewrite Mx_inv4 invmx1 /null_filter /Jbar mulmx1 mulmxBr mulmx1.
rewrite trmx_mul trmxK mulmxA.
have -> : J4 *m J4^T = 1%:M.
  by rewrite /J4 tr_row_mx mul_row_col trmx0 mulmx0 addr0 trmx1 mulmx1.
rewrite mul1mx /M4_inv tr_block_mx /J4 mul_row_block.
rewrite !mul0mx !mul1mx !addr0 trmx1 linearN /= trmxK.
by rewrite opp_row_mx add_row_mx subrr opprK add0r.
Qed.

Lemma e1_neq0 : e1 != 0.
Proof.
apply/eqP=> /matrixP /(_ axis0 0); rewrite !mxE /= => /eqP.
by rewrite oner_eq0.
Qed.

Lemma row_mx_e1_neq0 : row_mx (0 : 'M[rat]_3) e1 != 0.
Proof.
apply/eqP; rewrite -[RHS](@row_mx0 _ 3 3 1) => /eq_row_mx [_ /eqP].
by rewrite (negbTE e1_neq0).
Qed.


End Coupled.

(** C3, witness of the amended statement on the four-joint arm. *)
Lemma null_filter_dynamically_consistent_witness :
  J4 *m invmx M4 *m
    null_filter J4 (Jbar (invmx M4) J4 (invmx (J4 *m (invmx M4 *m J4^T))))
  = 0.
Proof.
apply: (@null_filter_dynamically_consistent _ _ J4 M4).
- exact: M4_unit.
- exact: M4_sym.
- by rewrite invmx_M4 Mx_inv4 unitmx1.
Defined.

(** C3, counterexample: on the four-joint arm, whose mass matrix and
    [Mx_inv] are invertible, [J * filter] is not the zero matrix. *)
Lemma null_filter_J_counterexample :
  [/\ M4 \in unitmx,
      J4 *m (invmx M4 *m J4^T) \in unitmx
    & J4 *m
        null_filter J4 (Jbar (invmx M4) J4 (invmx (J4 *m (invmx M4 *m J4^T))))
      != 0].
Proof.
split; first exact: M4_unit.
- by rewrite invmx_M4 Mx_inv4 unitmx1.
- by rewrite invmx_M4 J4_null_filter row_mx_e1_neq0.
Qed.

(** ** Order and minimum of float64 values *)

Section IeeeTheory.

Variable F : realFieldType.
Implicit Types (a b c : ieee F) (x y : F).

Lemma fmulFF x y : x * y != 0 -> fmul (Fin x) (Fin y) = Fin (x * y).
Proof. by rewrite /fmul /fround /= => /negbTE ->. Qed.

Lemma fdivFF x y : x != 0 -> y != 0 -> fdiv (Fin x) (Fin y) = Fin (x / y).
Proof.
move=> x0 y0; rewrite /fdiv /fround /= (negbTE y0).
by rewrite mulf_eq0 invr_eq0 (negbTE x0) (negbTE y0).
Qed.

Lemma fmul1f a : fmul (Fin 1) a = a.
Proof.
case: a => [|s||x] //=; rewrite /fmul /= ?oner_eq0 ?ltr10 //.
- by rewrite /fround mulr0 eqxx.
- by rewrite /fround mul1r; case: eqP => // ->; rewrite ltxx.
Qed.

Lemma fmulf1 a : fmul a (Fin 1) = a.
Proof.
case: a => [|s||x] //=; rewrite /fmul /= ?oner_eq0 ?ltr10 ?addbF //.
- by rewrite /fround mul0r eqxx.
- by rewrite /fround mulr1; case: eqP => // ->; rewrite ltxx.
Qed.

Lemma fdivf1 a : fdiv a (Fin 1) = a.
Proof.
case: a => [|s||x] //=; rewrite /fdiv /= ?oner_eq0 ?ltr10 ?addbF //.
- by rewrite /fround mul0r eqxx.
- by rewrite /fround divr1; case: eqP => // ->; rewrite ltxx.
Qed.

Lemma fge_refl a : ~~ is_nan a -> fge a a.
Proof. by case: a => [|[]||x] //=. Qed.

Lemma fge_total a b : ~~ is_nan a -> ~~ is_nan b -> ~~ fge a b -> fge b a.
Proof.
case: a => [|s||x] //; case: b => [|t||y] //= _ _; rewrite /fge /=;
  do ?[by case: s | by case: t | by case: s; case: t];
  do ?[by rewrite lexx]; by rewrite -ltNge => /ltW.
Qed.

Lemma fge_trans b a c : fge a b -> fge b c -> fge a c.
Proof.
case: a => [|s||x] //; case: b => [|t||y] //; case: c => [|r||z] //=;
  rewrite /fge /=; do ?[by case: s | by case: t | by case: r
                       | by case: s; case: t | by case: t; case: r
                       | by case: s; case: t; case: r];
  by move=> H1 H2; apply: le_trans H2 H1.
Qed.

Lemma flt_fge a b : flt a b -> ~~ fge a b.
Proof.
case: a => [|s||x] //; case: b => [|t||y] //=; rewrite /flt /fge /=;
  do ?[by case: s | by case: t | by case: s; case: t];
  by rewrite -ltNge.
Qed.

Lemma fge_flt_trans b a c : fge a b -> flt a c -> flt b c.
Proof.
case: a => [|s||x] //; case: b => [|t||y] //; case: c => [|r||z] //=;
  rewrite /fge /flt /=; do ?[by case: s | by case: t | by case: r
                       | by case: s; case: t | by case: t; case: r
                       | by case: s; case: t; case: r];
  by move=> H1 H2; apply: le_lt_trans H1 H2.
Qed.

Lemma axisP (P : 'I_3 -> Prop) :
  P axis0 -> P axis1 -> P axis2 -> forall i, P i.
Proof.
move=> P0 P1 P2 [[|[|[|k]]] Hk] //.
- by rewrite (_ : Ordinal Hk = axis0) //; apply: val_inj.
- by rewrite (_ : Ordinal Hk = axis1) //; apply: val_inj.
- by rewrite (_ : Ordinal Hk = axis2) //; apply: val_inj.
Qed.

Lemma argmin_step_min (s : 'I_3 -> ieee F) (best i : 'I_3) :
  (forall j, ~~ is_nan (s j)) ->
  fge (s best) (s (argmin_step s best i)) /\
  fge (s i) (s (argmin_step s best i)).
Proof.
move=> nn; rewrite /argmin_step (negbTE (nn best)).
case: ifP => [lt|/negbFE ge].
  by split; [apply: fge_total lt | apply: fge_refl].
by split; [apply: fge_refl|].
Qed.

Lemma np_argmin_min (s : 'I_3 -> ieee F) :
  (forall j, ~~ is_nan (s j)) -> forall i, fge (s i) (s (np_argmin s)).
Proof.
move=> nn; rewrite /np_argmin /=.
have [h01 h1] := argmin_step_min axis0 axis1 nn.
have [h12 h2] := argmin_step_min (argmin_step s axis0 axis1) axis2 nn.
apply: axisP => //.
- exact: fge_trans h01 h12.
- exact: fge_trans h1 h12.
Qed.

Lemma np_any_lt_argmin (s : 'I_3 -> ieee F) c :
  (forall j, ~~ is_nan (s j)) ->
  np_any (fun i => flt (s i) c) -> flt (s (np_argmin s)) c.
Proof.
move=> nn /hasP [i _ lti].
exact: fge_flt_trans (np_argmin_min nn i) lti.
Qed.

Lemma np_anyPn (p : 'I_3 -> bool) : ~~ np_any p -> forall i, ~~ p i.
Proof.
rewrite /np_any /= orbF !negb_or => /and3P [p0 p1 p2].
exact: axisP.
Qed.

End IeeeTheory.

(** ** Arithmetic on finite float64 values

    [to_fin a = Some x] reads: [a] is finite and stands for the number
    [x]. *)

Section FiniteValues.

Variable F : realFieldType.
Implicit Types (a b c : ieee F) (x y : F).

Lemma to_fin_fround s x : to_fin (fround s x) = Some x.
Proof. by rewrite /fround; case: eqP => // ->; case: s. Qed.

Lemma to_fin_fval a x : to_fin a = Some x -> fval a = x.
Proof. by case: a => [|s||z] //= [<-]. Qed.

Lemma to_fin_neq0 a x : to_fin a = Some x -> x != 0 -> a = Fin x.
Proof. by case: a => [|s||z] //= [<-] //; rewrite eqxx. Qed.

Lemma to_fin_fmul a b x y :
  to_fin a = Some x -> to_fin b = Some y -> to_fin (fmul a b) = Some (x * y).
Proof.
move=> ax ay; rewrite -(to_fin_fval ax) -(to_fin_fval ay).
by case: a b ax ay => [|s||z] // [|t||w] //= _ _; rewrite /fmul to_fin_fround.
Qed.

Lemma to_fin_fdiv a b x y :
  to_fin a = Some x -> to_fin b = Some y -> y != 0 ->
  to_fin (fdiv a b) = Some (x / y).
Proof.
move=> ax ay y0; rewrite (to_fin_neq0 ay y0) -(to_fin_fval ax).
by case: a ax => [|s||z] //= _; rewrite /fdiv /= (negbTE y0) to_fin_fround.
Qed.

Lemma to_fin_fneg a x : to_fin a = Some x -> to_fin (fneg a) = Some (- x).
Proof.
by case: a => [|s||z] //= [<-]; rewrite ?oppr0 // to_fin_fround.
Qed.

Lemma to_fin_fadd a b x y :
  to_fin a = Some x -> to_fin b = Some y -> to_fin (fadd a b) = Some (x + y).
Proof.
by case: a => [|s||z] //; case: b => [|t||w] //= [<-] [<-] //; rewrite addr0.
Qed.

Lemma to_fin_fsub a b x y :
  to_fin a = Some x -> to_fin b = Some y -> to_fin (fsub a b) = Some (x - y).
Proof. by move=> ax ay; apply: to_fin_fadd => //; apply: to_fin_fneg. Qed.

Lemma to_fin_flt a b x y :
  to_fin a = Some x -> to_fin b = Some y -> flt a b = (x < y).
Proof. by case: a => [|s||z] //; case: b => [|t||w] //= [<-] [<-]. Qed.

Lemma to_fin_fge a b x y :
  to_fin a = Some x -> to_fin b = Some y -> fge a b = (y <= x).
Proof. by case: a => [|s||z] //; case: b => [|t||w] //= [<-] [<-]. Qed.

Lemma to_fin_clip a x :
  to_fin a = Some x -> 0 <= x <= 1 ->
  to_fin (np_clip a (Fin 0) (Fin 1)) = Some x.
Proof.
move=> ax /andP [x0 x1]; rewrite /np_clip.
rewrite (to_fin_flt ax (erefl : to_fin (Fin 0) = _)).
rewrite (to_fin_flt (erefl : to_fin (Fin 1) = _) ax).
rewrite ltNge x0 /= ltNge x1 /=.
by case: a ax.
Qed.

Lemma np_clip_ge1 a : fge a (Fin 1) -> np_clip a (Fin 0) (Fin 1) = Fin 1.
Proof.
case: a => [|[]||x] //=; rewrite /fge /np_clip /= ?ler10 //.
move=> x1; rewrite ltNge (le_trans ler01 x1) /=.
by case: ltP => // x1'; congr Fin; apply/eqP; rewrite eq_le x1 x1'.
Qed.

Lemma fltNge a b : ~~ is_nan a -> ~~ is_nan b -> ~~ flt a b -> fge a b.
Proof.
case: a => [|s||x] //; case: b => [|t||y] //= _ _; rewrite /flt /fge /=;
  do ?[by case: s | by case: t | by case: s; case: t];
  by rewrite -leNgt.
Qed.

Lemma fge_flt a b : fge a b -> ~~ flt a b.
Proof.
case: a => [|s||x] //; case: b => [|t||y] //=; rewrite /flt /fge /=;
  do ?[by case: s | by case: t | by case: s; case: t];
  by rewrite -leNgt.
Qed.

Lemma to_vecP (a : 'I_3 -> ieee F) (v : 'cV[F]_3) :
  (forall i, to_fin (a i) = Some (v i 0)) -> to_vec a = Some v.
Proof.
move=> av; rewrite /to_vec.
have fin i : is_finite (a i) by case: (a i) (av i).
rewrite /= !fin /=; congr Some.
by apply/colP=> i; rewrite mxE (to_fin_fval (av i)).
Qed.

End FiniteValues.

(** ** The velocity limiter under valid gains

    The gains are positive, [kv] is a finite number [k], [lamb] is the
    quotient the constructor computes, and the limit [vm] is positive. *)

Section ValidGains.

Variable F : realFieldType.
Variable N_JOINTS : nat.
Variable self : OSC F N_JOINTS.
Variables (k vm : F) (e : 'cV[F]_3).
Hypothesis kp_gt0 : 0 < kp self.
Hypothesis kvE : kv self = Fin k.
Hypothesis k_gt0 : 0 < k.
Hypothesis lambE : lamb self = fdiv (Fin (kp self)) (Fin k).
Hypothesis vm_gt0 : 0 < vm.

Let L := kp self / k.

Lemma L_gt0 : 0 < L.
Proof. exact: divr_gt0. Qed.

Lemma lamb_fin : lamb self = Fin L.
Proof. by rewrite lambE fdivFF // gt_eqF. Qed.

Lemma sat_zero i : e i 0 = 0 -> sat self vm e i = Inf false.
Proof.
move=> e0; rewrite /sat lamb_fin e0 /= normr0 /fmul /fround /= mulr0 eqxx.
rewrite ltxx addbF ltNge (ltW L_gt0) /= eqxx (gt_eqF vm_gt0) ltNge (ltW vm_gt0) /=.
by rewrite ltxx.
Qed.

Lemma sat_nonzero i :
  e i 0 != 0 -> sat self vm e i = Fin (vm / (L * `|e i 0|)).
Proof.
move=> e0; have Le : L * `|e i 0| != 0.
  by rewrite mulf_neq0 ?normr_eq0 // gt_eqF // L_gt0.
by rewrite /sat lamb_fin /fabs fmulFF // fdivFF // gt_eqF.
Qed.

Lemma sat_not_nan i : ~~ is_nan (sat self vm e i).
Proof.
by have [/eqP /sat_zero ->|/sat_nonzero ->] := boolP (e i 0 == 0).
Qed.


Let s (i : 'I_3) : F := vm / (L * `|e i 0|).

Lemma s_gt0 i : e i 0 != 0 -> 0 < s i.
Proof.
by move=> e0; rewrite divr_gt0 // mulr_gt0 ?L_gt0 // normr_gt0.
Qed.

(** Under saturation the most-saturated axis has a nonzero error and a
    ratio below 1. *)
Lemma index_saturated :
  saturated self vm e ->
  e (index self vm e) 0 != 0 /\ s (index self vm e) < 1.
Proof.
move=> /(np_any_lt_argmin sat_not_nan); rewrite -/(index self vm e).
have [/eqP /sat_zero -> //|e0] := boolP (e (index self vm e) 0 == 0).
by rewrite sat_nonzero.
Qed.

Lemma scale_other_eq x :
  x != 0 -> k * vm * Num.sg x / (kp self * x) = vm / (L * `|x|).
Proof.
move=> x0; rewrite /L normrEsg.
rewrite !invfM invrK invr_sg !mulrA; congr (_ * _).
rewrite -!mulrA mulrCA; congr (_ * _). by rewrite mulrA [RHS]mulrC.
Qed.


Lemma scale_unsaturated i : ~~ saturated self vm e -> scale self vm e i = Fin 1.
Proof. by rewrite /scale => /negbTE ->. Qed.

Lemma scale_index :
  saturated self vm e -> scale self vm e (index self vm e) = Fin 1.
Proof. by rewrite /scale => ->; rewrite eqxx. Qed.

Lemma scale_other i :
  saturated self vm e -> i != index self vm e ->
  scale self vm e i = Fin (s (index self vm e)).
Proof.
move=> satd ne; have [x0 _] := index_saturated satd.
rewrite /scale satd (negbTE ne) fmul1f /clipped /unclipped kvE.
have kv0 : k * vm != 0 by rewrite mulf_neq0 // gt_eqF.
have sg0 : k * vm * Num.sg (e (index self vm e) 0) != 0.
  by rewrite mulf_neq0 // sgr_eq0.
have kx0 : kp self * e (index self vm e) 0 != 0.
  by rewrite mulf_neq0 // gt_eqF.
rewrite [fmul (Fin k) _]fmulFF // [np_sign _]/= !fmulFF // fdivFF //.
by rewrite scale_other_eq.
Qed.

Lemma sat_bound i : e i 0 != 0 -> forall x, x <= s i -> x * L * `|e i 0| <= vm.
Proof.
move=> e0 x; rewrite /s ler_pdivlMr ?mulrA //.
by rewrite mulr_gt0 ?L_gt0 // normr_gt0.
Qed.

(** The clip factor and the scale of an axis are finite, and bound the
    approach velocity. *)
Lemma limiter_factors i :
  exists cc ss,
    [/\ to_fin (np_clip (fdiv (sat self vm e i) (scale self vm e i))
                        (Fin 0) (Fin 1)) = Some cc,
        to_fin (scale self vm e i) = Some ss
      & cc * L * ss * `|e i 0| <= vm /\ 0 <= cc * L * ss].
Proof.
have L0 := L_gt0.
have [satd|unsat] := boolP (saturated self vm e); last first.
  exists 1, 1; rewrite scale_unsaturated // fdivf1.
  have ge1 : fge (sat self vm e i) (Fin 1).
    by apply: fltNge (sat_not_nan i) _ _ => //; apply: np_anyPn unsat i.
  rewrite np_clip_ge1 //; split=> //; rewrite mulr1 mul1r (ltW L0); split=> //.
  have [/eqP -> |e0] := boolP (e i 0 == 0); first by rewrite normr0 mulr0 ltW.
  by rewrite -[L]mul1r sat_bound //; move: ge1; rewrite sat_nonzero.
have [x0 lt1] := index_saturated satd.
have [/eqP -> |ne] := boolP (i == index self vm e).
  exists (s (index self vm e)), 1.
  rewrite scale_index // fdivf1 sat_nonzero // -/(s _).
  rewrite (@to_fin_clip _ (Fin (s (index self vm e))) (s (index self vm e))) //;
    first by rewrite (ltW lt1) (ltW (s_gt0 x0)).
  split=> //; rewrite mulr1 sat_bound // mulr_ge0 // ltW //.
  exact: s_gt0.
exists 1, (s (index self vm e)); rewrite scale_other //.
have sI0 := s_gt0 x0.
have [/eqP e0 |e0] := boolP (e i 0 == 0).
  have -> : fdiv (sat self vm e i) (Fin (s (index self vm e))) = Inf false.
    by rewrite sat_zero // /fdiv /= ltNge (ltW sI0).
  rewrite np_clip_ge1 // e0 normr0 mulr0 (ltW vm_gt0) mul1r.
  by split=> //; split=> //; rewrite mulr_ge0 // ltW.
have := np_argmin_min sat_not_nan i; rewrite -/(index self vm e).
rewrite !sat_nonzero // => le_s.
have {}le_s : s (index self vm e) <= s i by [].
have ge1 : 1 <= s i / s (index self vm e) by rewrite ler_pdivlMr // mul1r.
rewrite -/(s i) fdivFF ?gt_eqF // ?s_gt0 // np_clip_ge1 //.
split=> //; rewrite mul1r; split; last by rewrite mulr_ge0 // ltW.
by rewrite [L * _]mulrC sat_bound.
Qed.


Lemma approach_velocity_factors i :
  exists cc ss,
    [/\ to_fin (approach_velocity self vm e i) = Some (cc * - L * ss * e i 0),
        cc * L * ss * `|e i 0| <= vm & 0 <= cc * L * ss].
Proof.
have [cc [ss [clipE scaleE [bound ge0]]]] := limiter_factors i.
exists cc, ss; split=> //; rewrite /approach_velocity.
apply: to_fin_fmul => //; apply: to_fin_fmul => //; apply: to_fin_fmul => //.
by apply: to_fin_fneg; rewrite lamb_fin.
Qed.

Lemma approach_velocity_bound i :
  exists2 t, to_fin (approach_velocity self vm e i) = Some t & `|t| <= vm.
Proof.
have [cc [ss [-> bound ge0]]] := approach_velocity_factors i.
exists (cc * - L * ss * e i 0) => //.
by rewrite mulrN !mulNr normrN normrM ger0_norm.
Qed.

Lemma zero_error_not_index i :
  e i 0 = 0 -> saturated self vm e -> index self vm e != i.
Proof.
move=> e0 /index_saturated [x0 _]; apply: contraNneq x0 => ->.
by rewrite e0.
Qed.

Lemma zero_error_approach i :
  e i 0 = 0 -> to_fin (approach_velocity self vm e i) = Some 0.
Proof.
move=> e0; have [cc [ss [-> _ _]]] := approach_velocity_factors i.
by rewrite e0 mulr0.
Qed.

End ValidGains.

(** ** The velocity limiter when no axis is saturated *)

Section Unsaturated.

Variable F : realFieldType.
Variable N_JOINTS : nat.
Variable self : OSC F N_JOINTS.
Variables (k vm : F) (e : 'cV[F]_3).
Hypothesis kvE : kv self = Fin k.
Hypothesis lambE : lamb self = fdiv (Fin (kp self)) (Fin k).
Hypothesis unsat : forall i, fge (sat self vm e i) (Fin 1).

Lemma unsat_kv_neq0 : k != 0.
Proof.
apply/negP => /eqP k0; have := unsat axis0.
rewrite /sat lambE k0 /fdiv /fmul /= eqxx.
case: (kp self == 0) => //=.
by case: (`|e axis0 0| == 0) => //=; rewrite /fzero; case: (_ (+) _) => /=;
   rewrite /fge /= ler10.
Qed.

Lemma unsat_lamb : to_fin (lamb self) = Some (kp self / k).
Proof. by rewrite lambE; apply: to_fin_fdiv => //; apply: unsat_kv_neq0. Qed.

Lemma unsat_not_saturated : ~~ saturated self vm e.
Proof.
by rewrite /saturated /np_any /= !(negbTE (fge_flt (unsat _))).
Qed.

Lemma unsat_approach_velocity i :
  to_fin (approach_velocity self vm e i) = Some (- (kp self / k) * e i 0).
Proof.
rewrite /approach_velocity /scale (negbTE unsat_not_saturated) fdivf1.
rewrite np_clip_ge1 // fmul1f fmulf1.
by apply: to_fin_fmul => //; apply: to_fin_fneg; apply: unsat_lamb.
Qed.

Lemma unsat_u_task_vmax (dx tv : 'cV[F]_3) i :
  to_fin (u_task_vmax self vm e dx tv i)
  = Some (- kp self * e i 0 - k * (dx i 0 - tv i 0)).
Proof.
have -> : - kp self * e i 0 - k * (dx i 0 - tv i 0)
          = - k * (dx i 0 - tv i 0 - (- (kp self / k) * e i 0)).
  set A := dx i 0 - tv i 0.
  rewrite [- (kp self / k) * _]mulNr opprK mulrDr addrC !mulNr; congr (- _ - _).
  by rewrite mulrA mulrCA divff ?unsat_kv_neq0 // mulr1.
rewrite /u_task_vmax; apply: to_fin_fmul; first by rewrite kvE; apply: to_fin_fneg.
apply: to_fin_fsub; first exact: to_fin_fsub.
exact: unsat_approach_velocity.
Qed.


Lemma unsat_position_force (Jp : 'M[F]_(3, N_JOINTS)) (dq : 'cV[F]_N_JOINTS)
    (tv : 'cV[F]_3) :
  vmax self = Some vm ->
  position_force self Jp dq e tv
  = Some (- kp self *: e - k *: (Jp *m dq - tv)).
Proof.
move=> vmE; rewrite /position_force vmE; apply: to_vecP => i.
by rewrite unsat_u_task_vmax !mxE.
Qed.

End Unsaturated.

(** ** The claims on the velocity limiter *)

(** C2: with the velocity limit enabled and valid gains, the clipped
    approach-velocity term [clip(sat / scale, 0, 1) * -lamb * scale * e] is
    a finite number of magnitude at most [vmax] on every axis, whatever the
    position error. *)
Theorem velocity_cap_respected (F : realFieldType) (N_JOINTS : nat)
    (self : OSC F N_JOINTS) (k vm : F) (e : 'cV[F]_3) (i : 'I_3) :
  0 < kp self -> kv self = Fin k -> 0 < k ->
  lamb self = fdiv (Fin (kp self)) (Fin k) ->
  vmax self = Some vm -> 0 < vm ->
  exists2 t, to_fin (approach_velocity self vm e i) = Some t & `|t| <= vm.
Proof.
move=> kp0 kvE k0 lambE _ vm0.
exact: (approach_velocity_bound e kp0 kvE k0 lambE vm0).
Qed.

(** C2, witness: gains 1, limit 1/2, an error of 1 on every axis. *)
Lemma velocity_cap_respected_witness :
  exists2 t,
    to_fin (approach_velocity (controller 1 1 0 (Some 2%:R^-1) false 0)
              2%:R^-1 (const_mx 1) axis0) = Some t
    & `|t| <= 2%:R^-1.
Proof.
by apply: (@velocity_cap_respected _ _ _ 1).
Defined.

(** C9: with the velocity limit enabled and valid gains, an axis with zero
    position error is not below the saturation threshold, is never the
    most-saturated axis, and its clipped approach velocity is a zero, not
    NaN. *)
Theorem zero_error_axis (F : realFieldType) (N_JOINTS : nat)
    (self : OSC F N_JOINTS) (k vm : F) (e : 'cV[F]_3) (i : 'I_3) :
  0 < kp self -> kv self = Fin k -> 0 < k ->
  lamb self = fdiv (Fin (kp self)) (Fin k) ->
  vmax self = Some vm -> 0 < vm ->
  e i 0 = 0 ->
  [/\ ~~ flt (sat self vm e i) (Fin 1),
      saturated self vm e -> index self vm e != i
    & to_fin (approach_velocity self vm e i) = Some 0].
Proof.
move=> kp0 kvE k0 lambE _ vm0 e0; split.
- by rewrite (sat_zero kp0 k0 lambE vm0 e0).
- exact: (zero_error_not_index kp0 k0 lambE vm0 e0).
- exact: (zero_error_approach kp0 kvE k0 lambE vm0 e0).
Qed.

(** C9, witness: gains 1, limit 1/2, an error on the first axis only; the
    second axis has zero error. *)
Lemma zero_error_axis_witness :
  let self := controller 1 1 0 (Some 2%:R^-1) false 0 in
  [/\ ~~ flt (sat self 2%:R^-1 e1 axis1) (Fin 1),
      saturated self 2%:R^-1 e1 -> index self 2%:R^-1 e1 != axis1
    & to_fin (approach_velocity self 2%:R^-1 e1 axis1) = Some 0].
Proof.
apply: (@zero_error_axis _ _ _ 1) => //.
by rewrite /e1 mxE.
Defined.

(** C10: with the velocity limit enabled and every [sat_i >= 1], the force
    of the velocity limiter is the proportional-derivative law
    [-kp * e - kv * (J dq - target_vel)]. *)
Theorem unsaturated_is_pd_law (F : realFieldType) (N_JOINTS : nat)
    (self : OSC F N_JOINTS) (k vm : F) (e : 'cV[F]_3)
    (Jp : 'M[F]_(3, N_JOINTS)) (dq : 'cV[F]_N_JOINTS) (tv : 'cV[F]_3) :
  vmax self = Some vm -> kv self = Fin k ->
  lamb self = fdiv (Fin (kp self)) (Fin k) ->
  (forall i, fge (sat self vm e i) (Fin 1)) ->
  position_force self Jp dq e tv
  = Some (- kp self *: e - k *: (Jp *m dq - tv)).
Proof.
move=> vmE kvE lambE unsat.
exact: unsat_position_force.
Qed.

(** C10, witness: gains 1, limit 1/2, an error of 1/4 on every axis. *)
Lemma unsaturated_is_pd_law_witness :
  position_force (controller 1 1 0 (Some 2%:R^-1) false 0)
    1%:M 0 (const_mx 4%:R^-1) 0
  = Some (- 1 *: const_mx 4%:R^-1 - 1 *: (1%:M *m 0 - 0)).
Proof.
apply: (@unsaturated_is_pd_law _ _ _ 1 2%:R^-1) => // i.
by rewrite /sat mxE.
Defined.

(** ** What a call of [generate] computes *)

Section Generate.

Variable F : realFieldType.
Variable np : numpy F.
Variable N_JOINTS : nat.
Variable robot : robot_config F N_JOINTS.
Local Notation vec3 := 'cV[F]_3.
Local Notation vecN := 'cV[F]_N_JOINTS.
Implicit Types (self : OSC F N_JOINTS) (q dq : vecN).

(** What a call that returns has computed. *)
Lemma generateP self q dq target_pos target_vel ref_frame offset ee_force r :
  generate np robot self q dq target_pos target_vel ref_frame offset ee_force
  = Return r ->
  let Jp := usubmx (J robot ref_frame q offset) in
  let x_tilde := Tx robot ref_frame q offset - target_pos in
  let u_task :=
    task_force robot self ref_frame q dq Jp x_tilde target_vel ee_force in
  exists Mx flag,
    r = (torque np robot self Jp (M robot q) (invmx (M robot q)) Mx q dq u_task,
         updated self x_tilde dq Mx flag
           (torque_before_gravity robot self Jp (M robot q) Mx q dq u_task)).
Proof.
rewrite /generate /np_linalg_inv; case: ifP => //= _.
case: (task_inertia _ _ _) => //= -[Mx flag] [<-].
by exists Mx, flag.
Qed.

Lemma hold_dq_des0 self : dq_des self = 0 -> hold_dq_des self 0 = 0.
Proof.
by move=> dq0; apply/colP=> i; rewrite !mxE dq0 mxE if_same.
Qed.


Lemma position_force_use_g b self Jp dq x_tilde target_vel :
  position_force (with_use_g b self) Jp dq x_tilde target_vel
  = position_force self Jp dq x_tilde target_vel.
Proof.
rewrite /position_force /u_task_vmax /approach_velocity /scale /saturated
        /index /clipped /unclipped /sat /with_use_g.
cbn [kp kv ki vmax lamb].
reflexivity.
Qed.

Lemma task_force_use_g b self ref_frame q dq Jp x_tilde target_vel ee_force :
  task_force robot (with_use_g b self) ref_frame q dq Jp x_tilde target_vel
    ee_force
  = task_force robot self ref_frame q dq Jp x_tilde target_vel ee_force.
Proof.
rewrite /task_force position_force_use_g /integrate /with_use_g.
cbn [ki use_dJ integrated_error].
reflexivity.
Qed.

Lemma torque_before_gravity_use_g b self Jp Mq Mx q dq u_task :
  torque_before_gravity robot (with_use_g b self) Jp Mq Mx q dq u_task
  = torque_before_gravity robot self Jp Mq Mx q dq u_task.
Proof.
rewrite /torque_before_gravity /with_use_g; cbn [vmax use_C]; reflexivity.
Qed.

Lemma u_null_use_g b self Mq q dq :
  u_null np robot (with_use_g b self) Mq q dq = u_null np robot self Mq q dq.
Proof.
rewrite /u_null /q_des_finite /q_des /hold_dq_des /with_use_g.
cbn [null_indices nkp nkv dq_des]; reflexivity.
Qed.

(** The torque, from the torque before gravity compensation. *)
Lemma torqueE self Jp Mq M_inv Mx q dq u_task :
  torque np robot self Jp Mq M_inv Mx q dq u_task
  = let u := torque_before_gravity robot self Jp Mq Mx q dq u_task in
    let u := if use_g self then omap (fun u => u - g robot q) u else u in
    if null_control self then
      oadd u (omap (mulmx (null_filter Jp (Jbar M_inv Jp Mx)))
                   (u_null np robot self Mq q dq))
    else u.
Proof. reflexivity. Qed.

(** The torques with and without gravity compensation. *)
Lemma torque_gravity_toggle self Jp Mq M_inv Mx q dq u_task u_on :
  torque np robot (with_use_g true self) Jp Mq M_inv Mx q dq u_task
  = Some u_on ->
  exists2 u_off,
    torque np robot (with_use_g false self) Jp Mq M_inv Mx q dq u_task
    = Some u_off
    & u_off - u_on = g robot q.
Proof.
rewrite !torqueE !torque_before_gravity_use_g !u_null_use_g.
cbn [with_use_g use_g null_control].
case: (torque_before_gravity _ _ _ _ _ _ _ _) => [t|]; last by case: ifP.
cbn [omap obind oapp]; case: ifP => _.
  case: (omap _ _) => [n|] //; cbn [oadd] => -[<-]; exists (t + n) => //.
  by rewrite [t - _ + n]addrAC opprB addrCA subrr addr0.
by case=> <-; exists t => //; rewrite opprB addrCA subrr addr0.
Qed.

Lemma gravity_toggle_generate self q dq target_pos target_vel ref_frame offset
    ee_force u_on s_on :
  generate np robot (with_use_g true self) q dq target_pos target_vel
    ref_frame offset ee_force = Return (Some u_on, s_on) ->
  exists u_off s_off,
    [/\ generate np robot (with_use_g false self) q dq target_pos target_vel
          ref_frame offset ee_force = Return (Some u_off, s_off),
        u_off - u_on = g robot q
      & training_signal s_on = training_signal s_off].
Proof.
rewrite /generate; case: (np_linalg_inv _) => [M_inv|] //; cbn [bind].
case: (task_inertia _ _ _) => [[Mx flag]|] //; cbn [bind fst snd].
rewrite !task_force_use_g !torque_before_gravity_use_g.
case=> /torque_gravity_toggle [u_off -> diff] <-.
by exists u_off; eexists; split; first by reflexivity.
Qed.

Lemma proportional_generate self q dq target_pos target_vel ref_frame offset :
  vmax self = None -> ki self = 0 ->
  use_dJ self = false -> use_C self = false -> use_g self = false ->
  null_control self = false ->
  M robot q \in unitmx ->
  Mx_inv_of robot q ref_frame offset \in unitmx ->
  let Jp := usubmx (J robot ref_frame q offset) in
  let Mx := invmx (Mx_inv_of robot q ref_frame offset) in
  let e := Tx robot ref_frame q offset - target_pos in
  exists self',
    generate np robot self q dq target_pos target_vel ref_frame offset None
    = Return (Some (Jp^T *m (Mx *m (- kp self *: e)) - M robot q *m dq),
              self').
Proof.
move=> vmaxE kiE dJE CE gE nullE unitM unitMx Jp Mx e.
rewrite generate_returns // torqueE /torque_before_gravity /task_force
        /position_force vmaxE kiE dJE CE gE nullE eqxx.
by eexists; reflexivity.
Qed.

End Generate.

(** ** The constructor *)

Section Constructor.

Variable F : realFieldType.
Variable np : numpy F.
Variable N_JOINTS : nat.
Variable robot : robot_config F N_JOINTS.
Local Notation vec3 := 'cV[F]_3.
Local Notation vecN := 'cV[F]_N_JOINTS.
Implicit Types (p k gi : F) (vm : option F) (nc ug uc ud : bool)
  (ie : option vec3) (okv : option F).

Local Notation offset0 := (warm_up_offset robot).

Lemma init_zero_kv p gi vm nc ug uc ud ie :
  __init__ np robot p (Some 0) gi vm nc ug uc ud ie = Raise ZeroDivisionError.
Proof. by rewrite /__init__ eqxx. Qed.

(** What [__init__] has set when it returns. *)
Lemma init_state p okv gi vm nc ug uc ud ie self :
  __init__ np robot p okv gi vm nc ug uc ud ie = Return self ->
  [/\ integrated_error self
      = (if gi != 0 then (if ie is Some e then e else 0)
                         + Tx robot "EE" 0 offset0
         else if ie is Some e then e else 0),
      dq_des self = 0,
      kp self = p, ki self = gi & vmax self = vm].
Proof.
rewrite /__init__.
set lamb0 := (X in bind X _).
case: lamb0 => [l|] //; cbn [bind].
set self0 := MkOSC _ _ _ _ _ _ _ _ _ _ _ _ _ _ _ _ _.
case gen: (generate _ _ _ _ _ _ _ _ _ _) => [r|] //; cbn [bind] => -[<-].
have [Mx [flag ->]] := generateP gen.
cbn [snd updated integrated_error dq_des kp ki vmax].
rewrite /integrate; cbn [ki integrated_error self0]; rewrite subr0.
split=> //.
by case: ifP => // _; apply: hold_dq_des0.
Qed.

(** With a nonzero [kv] given, [__init__] returns as soon as the two
    inversions of the warm-up call go through. *)
Lemma init_returns p k gi vm nc ug uc ud ie :
  k != 0 ->
  M robot 0 \in unitmx ->
  Mx_inv_of robot 0 "EE" offset0 \in unitmx ->
  exists2 self,
    __init__ np robot p (Some k) gi vm nc ug uc ud ie = Return self
    & kv self = Fin k /\ lamb self = fdiv (Fin p) (Fin k).
Proof.
move=> k0 unitM unitMx; rewrite /__init__ (negbTE k0); cbn [bind].
rewrite generate_returns //; cbn [bind snd].
by eexists; first by reflexivity.
Qed.

End Constructor.

(** ** The integral term over a run of calls *)

Section Integral.

Variable F : realFieldType.
Variable np : numpy F.
Variable N_JOINTS : nat.
Variable robot : robot_config F N_JOINTS.
Local Notation vec3 := 'cV[F]_3.
Local Notation vecN := 'cV[F]_N_JOINTS.
Implicit Types (self : OSC F N_JOINTS) (a : call F N_JOINTS).

(** The controller after a call that returns. *)
Lemma generate_call_state self a r :
  generate_call np robot self a = Return r ->
  [/\ integrated_error r.2 = integrate self (position_error robot a),
      ki r.2 = ki self & kp r.2 = kp self].
Proof. by move=> /generateP [Mx [flag ->]]. Qed.

Lemma position_force_with_ki k self Jp dq x_tilde target_vel :
  position_force (with_ki k self) Jp dq x_tilde target_vel
  = position_force self Jp dq x_tilde target_vel.
Proof.
rewrite /position_force /u_task_vmax /approach_velocity /scale /saturated
        /index /clipped /unclipped /sat /with_ki.
cbn [kp kv ki vmax lamb].
reflexivity.
Qed.

(** The integral term enters the task-space force by subtraction. *)
Lemma call_task_force_integral self a :
  ki self != 0 ->
  call_task_force robot self a
  = omap (fun u => u - ki self *: (integrated_error self
                                     + position_error robot a))
         (call_task_force robot (with_ki 0 self) a).
Proof.
move=> ki0; rewrite /call_task_force /task_force position_force_with_ki.
rewrite /integrate; cbn [with_ki ki use_dJ integrated_error].
rewrite eqxx ki0.
case: (position_force _ _ _ _ _) => [u|]; last first.
  by case: ifP => _; case: (call_ee_force a).
case: ifP => _; case: (call_ee_force a) => [f|] //=;
  by rewrite addrAC.
Qed.

Lemma has_signD (neg : bool) (x y : F) :
  has_sign neg x -> has_sign neg y ->
  has_sign neg (x + y) /\ `|x| <= `|x + y|.
Proof.
case: neg => /= x0 y0.
  have xy0 : x + y <= 0 by rewrite -[0]addr0 lerD.
  by split=> //; rewrite !ler0_norm // lerN2 gerDl.
have xy0 : 0 <= x + y by rewrite addr_ge0.
by split=> //; rewrite !ger0_norm // lerDl.
Qed.

Lemma run_cons self a calls states :
  run np robot self (a :: calls) = Return states ->
  exists r rest,
    [/\ generate_call np robot self a = Return r,
        run np robot r.2 calls = Return rest
      & states = r.2 :: rest].
Proof.
cbn [run]; case gen: (generate_call _ _ _ _) => [r|] //; cbn [bind].
case rn: (run _ _ _ _) => [rest|] //; cbn [bind] => -[<-].
by exists r, rest.
Qed.

Lemma run_size self calls states :
  run np robot self calls = Return states -> size states = size calls.
Proof.
elim: calls self states => [|a calls IH] self states; first by case=> <-.
by move=> /run_cons [r [rest [_ /IH sz ->]]]; rewrite /= sz.
Qed.

(** One call with a nonzero [ki] on an accumulator of the sign of the
    error. *)
Lemma integral_step self a r (neg : 'I_3 -> bool) :
  0 < ki self ->
  (forall i, has_sign (neg i) (integrated_error self i 0)) ->
  (forall i, has_sign (neg i) (position_error robot a i 0)) ->
  generate_call np robot self a = Return r ->
  [/\ integrated_error r.2 = integrated_error self + position_error robot a,
      ki r.2 = ki self,
      forall i, has_sign (neg i) (integrated_error r.2 i 0),
      forall i, `|integrated_error self i 0| <= `|integrated_error r.2 i 0|
    & forall i, `|integral_term self i| <= `|integral_term r.2 i|].
Proof.
move=> ki0 sign_acc sign_e /generate_call_state [accE kiE _].
have {}accE :
    integrated_error r.2 = integrated_error self + position_error robot a.
  by rewrite accE /integrate gt_eqF.
have step i := has_signD (sign_acc i) (sign_e i).
have accE' i : integrated_error r.2 i 0
                = integrated_error self i 0 + position_error robot a i 0.
  by rewrite accE mxE.
split=> // i; rewrite ?accE'; try by case: (step i).
rewrite /integral_term kiE accE' !normrM ler_wpM2l //.
by case: (step i).
Qed.

(** A run of calls with a positive [ki], errors of one sign per axis and an
    accumulator that starts with that sign. *)
Lemma integral_run self calls states (neg : 'I_3 -> bool) s0 a0 :
  0 < ki self ->
  (forall i, has_sign (neg i) (integrated_error self i 0)) ->
  (forall k i, (k < size calls)%N ->
     has_sign (neg i) (position_error robot (nth a0 calls k) i 0)) ->
  run np robot self calls = Return states ->
  forall k, (k < size calls)%N ->
    let prev := nth s0 (self :: states) k in
    let next := nth s0 states k in
    let a := nth a0 calls k in
    [/\ integrated_error next = integrated_error prev + position_error robot a,
        call_task_force robot prev a
        = omap (fun u => u - ki prev *: integrated_error next)
               (call_task_force robot (with_ki 0 prev) a),
        forall i, `|integrated_error prev i 0| <= `|integrated_error next i 0|
      & forall i, `|integral_term prev i| <= `|integral_term next i|].
Proof.
elim: calls self states => [|a calls IH] self states ki0 sign_acc sign_e //.
move=> /run_cons [r [rest [gen rn ->]]].
have [accE kiE sign_acc' mono monoI] :=
  integral_step ki0 sign_acc (fun i => sign_e 0%N i isT) gen.
case=> [_|k lt_k]; cbn [nth].
  by split=> //; rewrite call_task_force_integral ?gt_eqF // accE.
apply: (IH r.2 rest) => //; first by rewrite kiE.
by move=> j i lt_j; apply: (sign_e j.+1).
Qed.

End Integral.

(** ** The integral term in the torque *)

Section IntegralTorque.

Variable F : realFieldType.
Variable np : numpy F.
Variable N_JOINTS : nat.
Variable robot : robot_config F N_JOINTS.
Local Notation vec3 := 'cV[F]_3.
Local Notation vecN := 'cV[F]_N_JOINTS.
Implicit Types (self : OSC F N_JOINTS) (a : call F N_JOINTS).

Lemma torque_before_gravity_with_ki k self Jp Mq Mx q dq u_task :
  torque_before_gravity robot (with_ki k self) Jp Mq Mx q dq u_task
  = torque_before_gravity robot self Jp Mq Mx q dq u_task.
Proof.
rewrite /torque_before_gravity /with_ki; cbn [vmax use_C]; reflexivity.
Qed.

Lemma u_null_with_ki k self Mq q dq :
  u_null np robot (with_ki k self) Mq q dq = u_null np robot self Mq q dq.
Proof.
rewrite /u_null /q_des_finite /q_des /hold_dq_des /with_ki.
cbn [null_indices nkp nkv dq_des]; reflexivity.
Qed.

(** Subtracting [c] from the task-space force subtracts [J^T Mx c] from
    the torque. *)
Lemma torque_subtract self Jp Mq M_inv Mx q dq (c : vec3) u_task :
  torque np robot self Jp Mq M_inv Mx q dq (omap (fun u => u - c) u_task)
  = omap (fun u => u - Jp^T *m (Mx *m c))
         (torque np robot self Jp Mq M_inv Mx q dq u_task).
Proof.
rewrite !torqueE /torque_before_gravity.
case: u_task => [f|]; cbn [omap obind oapp]; last first.
  by do 3![case: ifP => _ //]; case: (vmax self).
have lin : Jp^T *m (Mx *m (f - c)) = Jp^T *m (Mx *m f) - Jp^T *m (Mx *m c).
  by rewrite !mulmxBr.
rewrite lin; set X := Jp^T *m (Mx *m c); set Y := Jp^T *m (Mx *m f).
case: (vmax self) => [vm|]; case: (use_C self); case: (use_g self);
  case: (null_control self); cbn [omap obind oapp];
  try (case: (omap _ (u_null _ _ _ _ _ _)) => [n|]; cbn [oadd omap obind oapp]);
  try reflexivity; congr Some;
  by rewrite -?addrA ?[- X + _]addrC ?addrA // !(addrAC _ (- X)).
Qed.

Lemma torque_with_ki k self Jp Mq M_inv Mx q dq u_task :
  torque np robot (with_ki k self) Jp Mq M_inv Mx q dq u_task
  = torque np robot self Jp Mq M_inv Mx q dq u_task.
Proof.
rewrite !torqueE torque_before_gravity_with_ki u_null_with_ki.
cbn [with_ki use_g null_control]; reflexivity.
Qed.

Lemma task_force_integral self ref_frame q dq Jp x_tilde target_vel ee_force :
  ki self != 0 ->
  task_force robot self ref_frame q dq Jp x_tilde target_vel ee_force
  = omap (fun u => u - ki self *: (integrated_error self + x_tilde))
         (task_force robot (with_ki 0 self) ref_frame q dq Jp x_tilde
            target_vel ee_force).
Proof.
move=> ki0; rewrite /task_force position_force_with_ki.
rewrite /integrate; cbn [with_ki ki use_dJ integrated_error].
rewrite eqxx ki0.
case: (position_force _ _ _ _ _) => [u|]; last first.
  by case: ifP => _; case: ee_force.
case: ifP => _; case: ee_force => [f|] //=;
  by rewrite addrAC.
Qed.

(** The torque of a call with [ki != 0] is the torque of the same call
    without integral term, minus [J^T Mx (ki * integrated_error)]. *)
Lemma generate_call_integral_torque self a r :
  ki self != 0 ->
  generate_call np robot self a = Return r ->
  exists2 r0,
    generate_call np robot (with_ki 0 self) a = Return r0
    & r.1 = omap (fun u => u - integral_torque robot a r.2) r0.1.
Proof.
move=> ki0; rewrite /generate_call /generate.
case: (np_linalg_inv _) => [M_inv|] //; cbn [bind].
case: (task_inertia _ _ _) => [[X flag]|] //; cbn [bind fst snd].
case=> <-; eexists; first by reflexivity.
cbn [fst snd]; rewrite torque_with_ki task_force_integral // torque_subtract.
rewrite /integral_torque /call_jacobian.
by cbn [Mx updated ki integrated_error]; rewrite /integrate ki0.
Qed.

End IntegralTorque.

(** ** The example robots *)

Lemma det_M_singular : \det M_singular = 0.
Proof.
apply: (@determinant_alternate _ _ _ axis0 axis1) => // j.
by rewrite !mxE.
Qed.

Lemma gantry_unit p0 q : M (gantry 1%:M p0) q \in unitmx.
Proof. exact: unitmx1. Qed.

Lemma gantry_Mx_inv p0 q ref_frame offset :
  Mx_inv_of (gantry 1%:M p0) q ref_frame offset = 1%:M.
Proof. by rewrite /Mx_inv_of /= col_mxKu invmx1 trmx1 !mulmx1. Qed.

Lemma gantry_Mx_unit p0 q ref_frame offset :
  Mx_inv_of (gantry 1%:M p0) q ref_frame offset \in unitmx.
Proof. by rewrite gantry_Mx_inv unitmx1. Qed.

Lemma gantry_offset Mq p0 : warm_up_offset (gantry Mq p0) = 0.
Proof. by []. Qed.

Lemma gantry_origin_error p0 :
  position_error (gantry 1%:M p0) origin_call = p0.
Proof. by rewrite /position_error /= !addr0 subr0. Qed.

Lemma gantry_origin_call_returns p0 (self : OSC rat 3) :
  exists r, generate_call np_rat (gantry 1%:M p0) self origin_call = Return r.
Proof.
by rewrite /generate_call generate_returns ?gantry_unit ?gantry_Mx_unit //;
   eexists.
Qed.

Lemma e1_ge0 i : 0 <= e1 i 0.
Proof. by rewrite /e1 mxE ler0n. Qed.

Lemma J_skewK : J_skew_inv *m J_skew = 1%:M.
Proof.
rewrite /J_skew /J_skew_inv mulmxDr mulmx1 mulmxBl mul1mx.
by rewrite mul_delta_mx_0 // subr0 addrNK.
Qed.

Lemma J_skew_unit : J_skew \in unitmx.
Proof. by case: (mulmx1_unit J_skewK). Qed.

Lemma skew_Mx_inv q ref_frame offset :
  Mx_inv_of skew_gantry q ref_frame offset = J_skew *m J_skew^T.
Proof. by rewrite /Mx_inv_of /= col_mxKu invmx1 mul1mx. Qed.

Lemma skew_Mx_unit q ref_frame offset :
  Mx_inv_of skew_gantry q ref_frame offset \in unitmx.
Proof. by rewrite skew_Mx_inv unitmx_mul unitmx_tr J_skew_unit. Qed.

Lemma invmx_of_left_inverse (k : nat) (A B : 'M[rat]_k) :
  B *m A = 1%:M -> invmx A = B.
Proof.
move=> BA; have [unitB unitA] := mulmx1_unit BA.
by rewrite -[LHS]mul1mx -BA -mulmxA mulmxV ?mulmx1.
Qed.

Lemma skew_torque_map (v : 'cV[rat]_3) :
  J_skew^T *m (invmx (J_skew *m J_skew^T) *m v) = J_skew_inv *m v.
Proof.
have JK : J_skew *m J_skew_inv = 1%:M by apply: mulmx1C; apply: J_skewK.
have inv : invmx (J_skew *m J_skew^T) = J_skew_inv^T *m J_skew_inv.
  apply: invmx_of_left_inverse.
  by rewrite mulmxA -[_ *m J_skew_inv *m _]mulmxA J_skewK mulmx1 -trmx_mul JK
             trmx1.
by rewrite inv !mulmxA -trmx_mul J_skewK trmx1 mul1mx.
Qed.

Lemma skew_unit q : M skew_gantry q \in unitmx.
Proof. exact: unitmx1. Qed.

Lemma skew_target_error t : position_error skew_gantry (target_call t) = - t.
Proof. by rewrite /position_error /= mulmx0 addr0 sub0r. Qed.

Lemma skew_call_returns (self : OSC rat 3) t :
  exists r, generate_call np_rat skew_gantry self (target_call t) = Return r.
Proof.
rewrite /generate_call generate_returns ?skew_unit ?skew_Mx_unit //.
by eexists.
Qed.

Lemma skew_call_state (self : OSC rat 3) t r :
  generate_call np_rat skew_gantry self (target_call t) = Return r ->
  Mx r.2 = Some (invmx (J_skew *m J_skew^T)).
Proof.
rewrite /generate_call generate_returns ?skew_unit ?skew_Mx_unit //.
by case=> <-; cbn [snd Mx updated]; rewrite skew_Mx_inv.
Qed.

Lemma skew_integral_torque (self : OSC rat 3) t r :
  generate_call np_rat skew_gantry self (target_call t) = Return r ->
  integral_torque skew_gantry (target_call t) r.2
  = J_skew_inv *m (ki r.2 *: integrated_error r.2).
Proof.
move=> gen; rewrite /integral_torque (skew_call_state gen).
by rewrite /call_jacobian /= col_mxKu skew_torque_map.
Qed.

Lemma skew_inv_e1 : J_skew_inv *m e1 = e1.
Proof. by rewrite /J_skew_inv mulmxBl mul1mx /e1 mul_delta_mx_0 // subr0. Qed.

Lemma skew_inv_e2 : J_skew_inv *m e2 = e2 - e1.
Proof. by rewrite /J_skew_inv mulmxBl mul1mx /e2 mul_delta_mx. Qed.


(** ** The claims on [generate] *)

(** C1: the claim is that a call with a non-invertible mass matrix does not
    fail.  On the gantry with a mass matrix of rank one the call raises
    [LinAlgError]: [np.linalg.inv(M)] of line 141 runs before the test of
    [det(M)] of line 148, so the pseudo-inverse branch is not reached. *)
Theorem singular_mass_matrix_raises :
  generate np_rat (gantry M_singular 0)
    (controller 10%:R 1 0 (Some 2%:R^-1) true 0) 0 0 0 0 "EE" 0 None
  = Raise LinAlgError.
Proof. by apply: generate_singular_M; rewrite /= det_M_singular. Qed.

(** C4: two calls on the same inputs and the same controller state, one
    with gravity compensation and one without: when the first returns a
    finite torque so does the second, the torques differ by the gravity
    torque [g(q)] of the robot model, and the training signals are equal. *)
Theorem gravity_toggle (F : realFieldType) (np : numpy F) (N_JOINTS : nat)
    (robot : robot_config F N_JOINTS) (self : OSC F N_JOINTS)
    (q dq : 'cV[F]_N_JOINTS) (target_pos target_vel : 'cV[F]_3)
    (ref_frame : string) (offset : 'cV[F]_3) (ee_force : option 'cV[F]_3)
    (u_on : 'cV[F]_N_JOINTS) (s_on : OSC F N_JOINTS) :
  generate np robot (with_use_g true self) q dq target_pos target_vel
    ref_frame offset ee_force = Return (Some u_on, s_on) ->
  exists u_off s_off,
    [/\ generate np robot (with_use_g false self) q dq target_pos target_vel
          ref_frame offset ee_force = Return (Some u_off, s_off),
        u_off - u_on = g robot q
      & training_signal s_on = training_signal s_off].
Proof. exact: gravity_toggle_generate. Qed.

(** C4, witness: the gantry with unit masses, proportional law. *)
Lemma gravity_toggle_witness :
  let self := controller 10%:R 1 0 None true 0 in
  let robot := gantry 1%:M e1 in
  exists u_on s_on u_off s_off,
    [/\ generate np_rat robot (with_use_g true self) 0 0 0 0 "EE" 0 None
        = Return (Some u_on, s_on),
        generate np_rat robot (with_use_g false self) 0 0 0 0 "EE" 0 None
        = Return (Some u_off, s_off),
        u_off - u_on = g robot 0
      & training_signal s_on = training_signal s_off].
Proof.
move=> self robot.
have [u_on [s_on on]] : exists u s,
    generate np_rat robot (with_use_g true self) 0 0 0 0 "EE" 0 None
    = Return (Some u, s).
  rewrite generate_returns ?gantry_unit ?gantry_Mx_unit //.
  rewrite torqueE /torque_before_gravity /task_force /position_force.
  by cbn; eexists; eexists; reflexivity.
have [u_off [s_off [off diff signal]]] := gravity_toggle on.
by exists u_on, s_on, u_off, s_off.
Defined.

(** C5: with the velocity limit disabled the force of the position
    controller is [-kp * e]; with moreover [ki = 0], no external force and
    the four options off, a call on invertible matrices returns
    [J^T Mx (-kp e) - M dq], which for [dq = 0] is [J^T Mx (-kp e)]. *)
Theorem proportional_law (F : realFieldType) (np : numpy F) (N_JOINTS : nat)
    (robot : robot_config F N_JOINTS) (self : OSC F N_JOINTS)
    (q dq : 'cV[F]_N_JOINTS) (target_pos target_vel : 'cV[F]_3)
    (ref_frame : string) (offset : 'cV[F]_3) :
  vmax self = None -> ki self = 0 ->
  use_dJ self = false -> use_C self = false -> use_g self = false ->
  null_control self = false ->
  M robot q \in unitmx ->
  Mx_inv_of robot q ref_frame offset \in unitmx ->
  let Jp := usubmx (J robot ref_frame q offset) in
  let Mx := invmx (Mx_inv_of robot q ref_frame offset) in
  let e := Tx robot ref_frame q offset - target_pos in
  [/\ position_force self Jp dq e target_vel = Some (- kp self *: e),
      exists self',
        generate np robot self q dq target_pos target_vel ref_frame offset
          None
        = Return (Some (Jp^T *m (Mx *m (- kp self *: e)) - M robot q *m dq),
                  self')
    & dq = 0 ->
      exists self',
        generate np robot self q dq target_pos target_vel ref_frame offset
          None
        = Return (Some (Jp^T *m (Mx *m (- kp self *: e))), self')].
Proof.
move=> vmaxE kiE dJE CE gE nullE unitM unitMx Jp Mx e.
have [self' gen] :=
  proportional_generate np dq target_pos target_vel vmaxE kiE dJE CE gE
    nullE unitM unitMx.
split; first by rewrite /position_force vmaxE.
- by exists self'.
- by move=> dq0; exists self'; rewrite gen dq0 mulmx0 subr0.
Qed.

(** C5, witness: the gantry with unit masses at rest, the target one unit
    away along the first axis. *)
Lemma proportional_law_witness :
  let self := controller 10%:R 1 0 None false 0 in
  let robot := gantry 1%:M e1 in
  let Jp := usubmx (J robot "EE" 0 0) in
  let Mx := invmx (Mx_inv_of robot 0 "EE" 0) in
  let e := Tx robot "EE" 0 0 - 0 in
  [/\ position_force self Jp 0 e 0 = Some (- kp self *: e),
      exists self',
        generate np_rat robot self 0 0 0 0 "EE" 0 None
        = Return (Some (Jp^T *m (Mx *m (- kp self *: e)) - M robot 0 *m 0),
                  self')
    & (0 : 'cV[rat]_3) = 0 ->
      exists self',
        generate np_rat robot self 0 0 0 0 "EE" 0 None
        = Return (Some (Jp^T *m (Mx *m (- kp self *: e))), self')].
Proof.
apply: (@proportional_law _ np_rat _ (gantry 1%:M e1)) => //.
- exact: gantry_unit.
- exact: gantry_Mx_unit.
Defined.

(** ** The claims on the integral term and the constructor *)

(** C6, as amended.  First part, for every controller state and every
    call that returns with [ki != 0]: the call adds the position error to
    the accumulator, subtracts [ki * integrated_error] from the task-space
    force, and returns the torque of the same call without integral term
    minus [J^T Mx (ki * integrated_error)].  Second part: over a run of
    returning calls with [ki > 0], errors of one sign on each axis and an
    accumulator that starts at zero or with that sign, the magnitude of the
    accumulator and of the integral term [ki * integrated_error] of the
    task-space force never decreases on any axis. *)
Theorem integral_accumulation (F : realFieldType) (np : numpy F)
    (N_JOINTS : nat) (robot : robot_config F N_JOINTS)
    (self : OSC F N_JOINTS) :
  (forall (a : call F N_JOINTS) r,
     ki self != 0 ->
     generate_call np robot self a = Return r ->
     [/\ integrated_error r.2
         = integrated_error self + position_error robot a,
         call_task_force robot self a
         = omap (fun u => u - ki self *: integrated_error r.2)
                (call_task_force robot (with_ki 0 self) a)
       & exists2 r0,
           generate_call np robot (with_ki 0 self) a = Return r0
           & r.1 = omap (fun u => u - integral_torque robot a r.2) r0.1])
  /\
  (forall (calls : seq (call F N_JOINTS)) (states : seq (OSC F N_JOINTS))
          (neg : 'I_3 -> bool) (s0 : OSC F N_JOINTS) (a0 : call F N_JOINTS),
     0 < ki self ->
     (forall i, has_sign (neg i) (integrated_error self i 0)) ->
     (forall k i, (k < size calls)%N ->
        has_sign (neg i) (position_error robot (nth a0 calls k) i 0)) ->
     run np robot self calls = Return states ->
     forall k, (k < size calls)%N ->
       let prev := nth s0 (self :: states) k in
       let next := nth s0 states k in
       let a := nth a0 calls k in
       [/\ integrated_error next
           = integrated_error prev + position_error robot a,
           call_task_force robot prev a
           = omap (fun u => u - ki prev *: integrated_error next)
                  (call_task_force robot (with_ki 0 prev) a),
           forall i,
             `|integrated_error prev i 0| <= `|integrated_error next i 0|
         & forall i, `|integral_term prev i| <= `|integral_term next i|]).
Proof.
split; last by move=> calls states neg s0 a0; apply: integral_run.
move=> a r ki0 gen.
have [accE _ _] := generate_call_state gen.
have {}accE :
    integrated_error r.2 = integrated_error self + position_error robot a.
  by rewrite accE /integrate ki0.
split=> //; first by rewrite call_task_force_integral // accE.
exact: generate_call_integral_torque.
Qed.

(** C6, witness: two calls on the gantry with the target one unit away
    along the first axis, from a zero accumulator. *)
Lemma integral_accumulation_witness :
  let robot := gantry 1%:M e1 in
  let self := controller 10%:R 1 1 None false 0 in
  let calls := [:: origin_call; origin_call] in
  (exists2 r,
     generate_call np_rat robot self origin_call = Return r
     & [/\ integrated_error r.2
           = integrated_error self + position_error robot origin_call,
           call_task_force robot self origin_call
           = omap (fun u => u - ki self *: integrated_error r.2)
                  (call_task_force robot (with_ki 0 self) origin_call)
         & exists2 r0,
             generate_call np_rat robot (with_ki 0 self) origin_call
             = Return r0
             & r.1 = omap (fun u => u - integral_torque robot origin_call r.2)
                          r0.1])
  /\
  (exists2 states,
    run np_rat robot self calls = Return states
    & forall k, (k < size calls)%N ->
      let prev := nth self (self :: states) k in
      let next := nth self states k in
      let a := nth origin_call calls k in
      [/\ integrated_error next
          = integrated_error prev + position_error robot a,
          call_task_force robot prev a
          = omap (fun u => u - ki prev *: integrated_error next)
                 (call_task_force robot (with_ki 0 prev) a),
          forall i,
            `|integrated_error prev i 0| <= `|integrated_error next i 0|
        & forall i, `|integral_term prev i| <= `|integral_term next i|]).
Proof.
move=> robot self calls.
have [r1 gen1] := gantry_origin_call_returns e1 self.
have [r2 gen2] := gantry_origin_call_returns e1 r1.2.
have runE : run np_rat robot self calls = Return [:: r1.2; r2.2].
  by cbn [run calls]; rewrite gen1; cbn [bind]; rewrite gen2.
have [step monotone] := @integral_accumulation _ np_rat _ robot self.
split.
  by exists r1 => //; apply: step.
exists [:: r1.2; r2.2] => //.
apply: (monotone calls _ (fun=> false)).
- by [].
- by move=> i; rewrite mxE.
- by move=> [|[|k]] i // _; rewrite /= gantry_origin_error e1_ge0.
- exact: runE.
Defined.

(** The accumulator can shrink: [ki = 1], the error is one unit along the
    first axis in both calls, and the accumulator the caller supplied is -2
    on that axis: its magnitude goes 2, 1, 0. *)
Lemma integral_magnitude_decreases :
  let robot := gantry 1%:M e1 in
  let self := controller 10%:R 1 1 None false (- (e1 + e1)) in
  exists s1 s2,
    [/\ run np_rat robot self [:: origin_call; origin_call]
        = Return [:: s1; s2],
        0 < ki self,
        forall i, 0 <= position_error robot origin_call i 0,
        `|integrated_error s1 axis0 0| < `|integrated_error self axis0 0|
      & `|integrated_error s2 axis0 0| < `|integrated_error s1 axis0 0|].
Proof.
move=> robot self.
have [r1 gen1] := gantry_origin_call_returns e1 self.
have [r2 gen2] := gantry_origin_call_returns e1 r1.2.
have [acc1 ki1 _] := generate_call_state gen1.
have [acc2 ki2 _] := generate_call_state gen2.
exists r1.2, r2.2; split.
- by cbn [run]; rewrite gen1; cbn [bind]; rewrite gen2.
- by [].
- by move=> i; rewrite gantry_origin_error e1_ge0.
- by rewrite acc1 /integrate gantry_origin_error /= !mxE.
- rewrite acc2 /integrate ki1 acc1 /integrate gantry_origin_error /=.
  by rewrite !mxE.
Qed.

(** The integral part of the torque can shrink although the accumulator
    grows: on the skew gantry with [ki = 1] and a zero accumulator, the
    errors (2, 0, 0) and then (0, 1, 0) take the accumulator to (2, 0, 0)
    and (2, 1, 0), and [J^T Mx (ki * integrated_error)] from (2, 0, 0) to
    (1, 1, 0): smaller on the first joint and in Euclidean norm. *)
Lemma integral_torque_decreases :
  let robot := skew_gantry in
  let self := controller 10%:R 1 1 None false 0 in
  let a1 := target_call (- (e1 + e1)) in
  let a2 := target_call (- e2) in
  exists s1 s2,
    [/\ run np_rat robot self [:: a1; a2] = Return [:: s1; s2],
        0 < ki self,
        forall i, 0 <= integrated_error self i 0,
        forall i, 0 <= position_error robot a1 i 0
                  /\ 0 <= position_error robot a2 i 0
      & `|integral_torque robot a2 s2 axis0 0|
        < `|integral_torque robot a1 s1 axis0 0|
        /\ \sum_i (integral_torque robot a2 s2 i 0) ^+ 2
           < \sum_i (integral_torque robot a1 s1 i 0) ^+ 2].
Proof.
move=> robot self a1 a2.
have [r1 gen1] := skew_call_returns self (- (e1 + e1)).
have [r2 gen2] := skew_call_returns r1.2 (- e2).
have [acc1 ki1 _] := generate_call_state gen1.
have [acc2 ki2 _] := generate_call_state gen2.
have t1 : integral_torque robot a1 r1.2 = e1 + e1.
  rewrite (skew_integral_torque gen1) ki1 acc1 /integrate skew_target_error.
  by rewrite /= scale1r add0r opprK mulmxDr skew_inv_e1.
have t2 : integral_torque robot a2 r2.2 = e2 + e1.
  rewrite (skew_integral_torque gen2) ki2 ki1 acc2 /integrate ki1 acc1.
  rewrite /integrate !skew_target_error /= scale1r add0r !opprK !mulmxDr.
  by rewrite skew_inv_e1 skew_inv_e2 addrC addrA addrNK.
exists r1.2, r2.2; split.
- by cbn [run]; rewrite gen1; cbn [bind]; rewrite gen2.
- by [].
- by move=> i; rewrite mxE.
- move=> i; rewrite !skew_target_error !opprK; split.
    by rewrite mxE addr_ge0 ?e1_ge0.
  by rewrite /e2 mxE ler0n.
- by rewrite t1 t2 !big_ord_recl !big_ord0 !mxE /=.
Qed.

(** C6, counterexample, in two parts.  With a caller-supplied accumulator of
    the sign opposite to the error, the magnitude of the accumulator
    decreases.  With a zero accumulator and errors of constant sign, the
    integral contribution to the torque decreases in magnitude. *)
Lemma integral_magnitude_counterexample :
  (let robot := gantry 1%:M e1 in
   let self := controller 10%:R 1 1 None false (- (e1 + e1)) in
   exists s1 s2,
     [/\ run np_rat robot self [:: origin_call; origin_call]
         = Return [:: s1; s2],
         0 < ki self,
         forall i, 0 <= position_error robot origin_call i 0,
         `|integrated_error s1 axis0 0| < `|integrated_error self axis0 0|
       & `|integrated_error s2 axis0 0| < `|integrated_error s1 axis0 0|])
  /\
  (let robot := skew_gantry in
   let self := controller 10%:R 1 1 None false 0 in
   let a1 := target_call (- (e1 + e1)) in
   let a2 := target_call (- e2) in
   exists s1 s2,
     [/\ run np_rat robot self [:: a1; a2] = Return [:: s1; s2],
         0 < ki self,
         forall i, 0 <= integrated_error self i 0,
         forall i, 0 <= position_error robot a1 i 0
                   /\ 0 <= position_error robot a2 i 0
       & `|integral_torque robot a2 s2 axis0 0|
         < `|integral_torque robot a1 s1 axis0 0|
         /\ \sum_i (integral_torque robot a2 s2 i 0) ^+ 2
            < \sum_i (integral_torque robot a1 s1 i 0) ^+ 2]).
Proof.
split; [exact: integral_magnitude_decreases | exact: integral_torque_decreases].
Qed.

(** C7: the claim is that after construction the accumulator is zero when
    no initial value is given.  With [ki = 1] and the defaults otherwise, on
    a gantry whose controlled point is one unit from the origin, the
    accumulator after [__init__] is that position: the warm-up call of lines
    82-85 runs [integrated_error += x_tilde] with the target at the
    origin. *)
Theorem init_accumulates_warm_up_error :
  exists2 self,
    __init__ np_rat (gantry 1%:M e1) 10%:R (Some 1) 1 (Some 2%:R^-1)
      true true false false None = Return self
    & integrated_error self = e1 /\ integrated_error self != 0.
Proof.
have [self init _] :=
  @init_returns _ np_rat _ (gantry 1%:M e1) 10%:R 1 1 (Some 2%:R^-1)
    true true false false None (oner_neq0 _) (gantry_unit _ _)
    (gantry_Mx_unit _ _ _ _).
exists self => //.
have [-> _ _ _ _] := init_state init.
by rewrite oner_neq0 gantry_offset /= !addr0 add0r e1_neq0.
Qed.

(** C8, as amended: the constructor does not validate the gains.  For every
    nonzero [kv] the caller gives, negative ones included, [__init__]
    returns as soon as the two matrix inversions of its warm-up call go
    through, and the controller holds [kv] as given and [lamb = kp / kv]. *)
Theorem init_accepts_nonzero_kv (F : realFieldType) (np : numpy F)
    (N_JOINTS : nat) (robot : robot_config F N_JOINTS)
    (p k gi : F) (vm : option F) (nc ug uc ud : bool)
    (ie : option 'cV[F]_3) :
  k != 0 ->
  M robot 0 \in unitmx ->
  Mx_inv_of robot 0 "EE" (warm_up_offset robot) \in unitmx ->
  exists2 self,
    __init__ np robot p (Some k) gi vm nc ug uc ud ie = Return self
    & kv self = Fin k /\ lamb self = fdiv (Fin p) (Fin k).
Proof. exact: init_returns. Qed.

(** C8, witness: [kv = -1] on the gantry. *)
Lemma init_accepts_nonzero_kv_witness :
  exists2 self,
    __init__ np_rat (gantry 1%:M 0) 10%:R (Some (-1)) 0 (Some 2%:R^-1)
      true true false false None = Return self
    & kv self = Fin (-1) /\ lamb self = fdiv (Fin 10%:R) (Fin (-1)).
Proof.
apply: init_accepts_nonzero_kv => //.
- exact: gantry_unit.
- exact: gantry_Mx_unit.
Defined.

(** C8, counterexample: with [kv = -1] and the defaults otherwise the
    constructor returns a controller, and the next call returns too: no
    error is raised. *)
Lemma negative_kv_not_rejected :
  exists self r,
    __init__ np_rat (gantry 1%:M 0) 10%:R (Some (-1)) 0 (Some 2%:R^-1)
      true true false false None = Return self
    /\ generate np_rat (gantry 1%:M 0) self 0 0 0 0 "EE" 0 None = Return r.
Proof.
have k0 : (-1 : rat) != 0 by [].
have [self init _] :=
  @init_returns _ np_rat _ (gantry 1%:M 0) 10%:R (-1) 0 (Some 2%:R^-1)
    true true false false None k0 (gantry_unit _ _) (gantry_Mx_unit _ _ _ _).
exists self; eexists; split; first exact: init.
by rewrite generate_returns ?gantry_unit ?gantry_Mx_unit.
Qed.
